(** * estimate.c: least-squares regression by the normal equations

    A shallow embedding of [src/pa2/estimate.c].  The C program works on
    [double **] matrices that live on the heap and are mutated in place, so
    the embedding is a state-and-error monad over a store of matrices:
    a pointer is an index into the store, [matrix[i][j]] is a bounds-checked
    load or store, and an access outside an allocation has no result.

    The scalar type is abstract and nothing is assumed of its operations:
    what is proved of the functions holds of the IEEE binary64 numbers of
    the program, at which the development is instantiated.  Where a
    statement is about exact arithmetic it says so, by the class [Exact]
    of the arithmetic of a field, which the rationals have and [double]
    has not.  Dimensions and loop counters, [int] in C, only run between 0
    and a dimension and are natural numbers here. *)

From Stdlib Require Import Floats.
From Stdlib Require Import ZArith QArith Qcanon Field Ring Lqa String Ascii.
From Stdlib Require Import DecimalString.
From stdpp Require Import base option list.

Open Scope string_scope.

(** ** Scalars *)

(** The arithmetic of the program: the constants 0 and 1 and [+ - * /] on
    [double].  No law is assumed. *)
Class Scalar (F : Type) := {
  zero : F;
  one : F;
  add : F -> F -> F;
  mul : F -> F -> F;
  sub : F -> F -> F;
  div : F -> F -> F
}.

(** Exact arithmetic: the operations are those of a field, as on the
    rationals and the reals.  The arithmetic of [double] is not exact. *)
Class Exact (F : Type) `{Scalar F} := {
  opp : F -> F;
  inv : F -> F;
  scalar_field : field_theory zero one add mul sub opp div inv eq
}.

(** Two laws that [double] has as well: products do not depend on the
    order of the factors, and the operations of the program on the
    constants 0 and 1 give 0 and 1. *)
Class Commutative (F : Type) `{Scalar F} :=
  mul_comm : forall x y : F, mul x y = mul y x.

Class ZeroOne (F : Type) `{Scalar F} := {
  one_div_one : div one one = one;
  zero_div_one : div zero one = zero;
  zero_mul_zero : mul zero zero = zero;
  zero_mul_one : mul zero one = zero;
  one_sub_zero : sub one zero = one;
  zero_sub_zero : sub zero zero = zero
}.

(** What the C library contributes: the content of a cell that [malloc] has
    just handed out, and the conversion that [printf] performs for [%.0f]. *)
Class Libc (F : Type) := {
  indet : F;
  fmt_0f : F -> string
}.

Declare Scope F_scope.
Delimit Scope F_scope with F.
Notation "x + y" := (add x y) : F_scope.
Notation "x * y" := (mul x y) : F_scope.
Notation "x - y" := (sub x y) : F_scope.
Notation "x / y" := (div x y) : F_scope.
Notation "0" := zero : F_scope.
Notation "1" := one : F_scope.

(** The rationals and the reals are moreover ordered; of the order only the
    sign of sums of squares is used. *)
Class Ordered (F : Type) `{Scalar F} := {
  nonneg : F -> Prop;
  nonneg_square : forall x : F, nonneg (x * x)%F;
  nonneg_add : forall x y : F, nonneg x -> nonneg y -> nonneg (x + y)%F;
  nonneg_sum_zero : forall x y : F,
    nonneg x -> nonneg y -> (x + y)%F = 0%F -> x = 0%F /\ y = 0%F;
  square_zero : forall x : F, (x * x)%F = 0%F -> x = 0%F
}.

Declare Scope prog_scope.
Delimit Scope prog_scope with prog.

(** ** Programs over a store of matrices *)

Section Store.

Context {F : Type}.

(** A [double **] with its rows: a list of rows. *)
Abbreviation mat := (list (list F)).

(** A pointer to a matrix is its index in the store. *)
Definition loc := nat.

(** The two input streams of [main]. *)
Inductive FILE := file1 | file2.

(** A call of one of the functions of the program, with its arguments. *)
Inductive call :=
  | call_transpose (matrix transpose : loc) (rows cols : nat)
  | call_printPriceMatrix (matrix : loc) (rows cols : nat)
  | call_inverse (matrix : loc) (rows cols : nat)
  | call_multiply (matrix1 matrix2 result : loc) (rows cols cols1 : nat)
  | call_insertZeroes (matrix : loc) (rows cols : nat).

(** The state of the process: the heap of matrices, what is left to scan of
    the numbers of each input file, what was printed so far, and the calls
    made so far, in order (a history, which the program does not read). *)
Record world := World {
  mem : list mat;
  in1 : list F;
  in2 : list F;
  out : string;
  calls : list call
}.

Definition set_mem (h : list mat) (w : world) : world :=
  World h (in1 w) (in2 w) (out w) (calls w).

Definition stream (fp : FILE) (w : world) : list F :=
  match fp with file1 => in1 w | file2 => in2 w end.

Definition set_stream (fp : FILE) (l : list F) (w : world) : world :=
  match fp with
  | file1 => World (mem w) l (in2 w) (out w) (calls w)
  | file2 => World (mem w) (in1 w) l (out w) (calls w)
  end.

(** [entered c w]: the world [w] with the call [c] added to the history. *)
Definition entered (c : call) (w : world) : world :=
  World (mem w) (in1 w) (in2 w) (out w) (calls w ++ [c]).

(** [upd m X w]: the world [w] with the matrix at [m] replaced by [X]. *)
Definition upd (m : loc) (X : mat) (w : world) : world :=
  set_mem (<[m := X]> (mem w)) w.

(** A computation returns a value and a new world, or has no result
    (an access outside an allocated block). *)
Definition M (A : Type) : Type := world -> option (A * world).

Definition ret {A} (a : A) : M A := fun w => Some (a, w).

Definition bind {A B} (c : M A) (k : A -> M B) : M B :=
  fun w => match c w with
           | Some (a, w') => k a w'
           | None => None
           end.

(** The entry of a function. *)
Definition enter (c : call) : M unit := fun w => Some (tt, entered c w).

End Store.

Arguments world F : clear implicits.
Arguments M F A : clear implicits.

Notation "x <- c ;; k" := (bind c (fun x => k))
  (at level 100, c at next level, k at level 200, right associativity)
  : prog_scope.
Notation "c ;; k" := (bind c (fun _ => k))
  (at level 100, k at level 200, right associativity) : prog_scope.
Open Scope prog_scope.

Section Program.

Context {F : Type} `{Scalar F} `{Libc F}.

Abbreviation mat := (list (list F)).

(** [cell X i j] is the value at row [i], column [j], and [0] outside [X]. *)
Definition cell (X : mat) (i j : nat) : F :=
  match X !! i with
  | Some row => default 0%F (row !! j)
  | None => 0%F
  end.

(** [mset X i j v]: [X] with the cell at row [i], column [j] set to [v]. *)
Definition mset (X : mat) (i j : nat) (v : F) : mat :=
  match X !! i with
  | Some row => <[i := <[j := v]> row]> X
  | None => X
  end.

(** [m[i][j]] as an rvalue. *)
Definition load (m : loc) (i j : nat) : M F F :=
  fun w => match mem w !! m with
           | Some X =>
               match X !! i with
               | Some row =>
                   match row !! j with
                   | Some x => Some (x, w)
                   | None => None
                   end
               | None => None
               end
           | None => None
           end.

(** [m[i][j] = v]. *)
Definition store (m : loc) (i j : nat) (v : F) : M F unit :=
  fun w => match mem w !! m with
           | Some X =>
               match X !! i with
               | Some row =>
                   if decide (j < length row)
                   then Some (tt, upd m (<[i := <[j := v]> row]> X) w)
                   else None
               | None => None
               end
           | None => None
           end.

(** The allocation idiom of the program: [malloc] of [rows] row pointers
    followed by [malloc] of [cols] cells for each row.  The block is new
    (the program never frees) and its cells are not initialised. *)
Definition malloc_matrix (rows cols : nat) : M F loc :=
  fun w => Some (length (mem w),
                 set_mem (mem w ++ [replicate rows (replicate cols indet)]) w).

(** [for (i = lo; i < hi; i++) body] *)
Fixpoint for_count (n i : nat) (body : nat -> M F unit) : M F unit :=
  match n with
  | O => ret tt
  | S n' => body i ;; for_count n' (S i) body
  end.

Definition for_up (lo hi : nat) (body : nat -> M F unit) : M F unit :=
  for_count (hi - lo) lo body.

(** [for (i = n - 1; i >= 0; i--) body] *)
Fixpoint for_down (n : nat) (body : nat -> M F unit) : M F unit :=
  match n with
  | O => ret tt
  | S k => body k ;; for_down k body
  end.

(** [fscanf(fp, "%lf", &m[i][j])]: the next number of the stream is stored
    in the cell; at the end of the stream nothing is converted and the cell
    keeps its value. *)
Definition fscanf_lf (fp : FILE) (m : loc) (i j : nat) : M F unit :=
  fun w => match stream fp w with
           | [] => Some (tt, w)
           | x :: rest => store m i j x (set_stream fp rest w)
           end.

Definition printf (s : string) : M F unit :=
  fun w => Some (tt, World (mem w) (in1 w) (in2 w) (out w ++ s) (calls w)).

(** *** The functions of estimate.c *)

Definition transpose (matrix transpose : loc) (rows cols : nat) : M F loc :=
  enter (call_transpose matrix transpose rows cols);;
  for_up 0 cols (fun i =>
    for_up 0 rows (fun j =>
      x <- load matrix j i;;
      store transpose i j x));;
  ret transpose.

Definition printPriceMatrix (matrix : loc) (rows cols : nat) : M F unit :=
  enter (call_printPriceMatrix matrix rows cols);;
  for_up 0 rows (fun i =>
    for_up 0 cols (fun j =>
      x <- load matrix i j;;
      printf (fmt_0f x));;
    printf (String "010" "")).

Definition inverse (matrix : loc) (rows cols : nat) : M F loc :=
  enter (call_inverse matrix rows cols);;
  identity_matrix <- malloc_matrix rows rows;;
  for_up 0 rows (fun i =>
    for_up 0 cols (fun j =>
      if decide (i = j)
      then store identity_matrix i j 1%F
      else store identity_matrix i j 0%F));;
  for_up 0 rows (fun p =>
    f <- load matrix p p;;
    for_up 0 rows (fun ct =>
      x <- load matrix p ct;;
      store matrix p ct (x / f)%F;;
      y <- load identity_matrix p ct;;
      store identity_matrix p ct (y / f)%F);;
    for_up (p + 1) rows (fun i =>
      f <- load matrix i p;;
      for_up 0 rows (fun ct =>
        x <- load matrix i ct;;
        xp <- load matrix p ct;;
        store matrix i ct (x - f * xp)%F;;
        y <- load identity_matrix i ct;;
        yp <- load identity_matrix p ct;;
        store identity_matrix i ct (y - f * yp)%F)));;
  for_down rows (fun p =>
    for_down p (fun i =>
      f <- load matrix i p;;
      for_up 0 rows (fun ct =>
        x <- load matrix i ct;;
        xp <- load matrix p ct;;
        store matrix i ct (x - f * xp)%F;;
        y <- load identity_matrix i ct;;
        yp <- load identity_matrix p ct;;
        store identity_matrix i ct (y - f * yp)%F)));;
  ret identity_matrix.

Definition multiply (matrix1 matrix2 result : loc) (rows cols cols1 : nat)
    : M F loc :=
  enter (call_multiply matrix1 matrix2 result rows cols cols1);;
  for_up 0 rows (fun i =>
    for_up 0 cols (fun j =>
      for_up 0 cols1 (fun k =>
        r <- load result i j;;
        a <- load matrix1 i k;;
        b <- load matrix2 k j;;
        store result i j (r + a * b)%F)));;
  ret result.

Definition insertZeroes (matrix : loc) (rows cols : nat) : M F loc :=
  enter (call_insertZeroes matrix rows cols);;
  for_up 0 rows (fun i =>
    for_up 0 cols (fun j =>
      store matrix i j 0%F));;
  ret matrix.

(** An input file after scanning: the two counts that its header declares
    (the dataset-name token before them is skipped) and the numbers that
    follow, in the order [%lf] converts them.  The list may be shorter or
    longer than the counts announce. *)
Record file := File {
  attributes : nat;
  houses : nat;
  numbers : list F
}.

(** [fopen] and the three [fscanf] calls that read the header. *)
Definition fopen (fp : FILE) (f : file) : M F (nat * nat) :=
  fun w => Some ((attributes f, houses f), set_stream fp (numbers f) w).

(** The variables of [main] that are live after the training part. *)
Record training := Training {
  num_of_attributes : nat;
  num_of_houses : nat;
  matrix_x : loc;
  vector_y : loc;
  vector_w : loc;
  transpose_x : loc;
  product_x : loc;
  inverse_x : loc;
  result_x : loc
}.

(** [main], lines 123-212: everything up to the comment that closes the
    training part. *)
Definition main_train (train : file) : M F training :=
  hdr <- fopen file1 train;;
  let num_of_attributes := hdr.1 in
  let num_of_houses := hdr.2 in
  matrix_x <- malloc_matrix num_of_houses (num_of_attributes + 1);;
  vector_y <- malloc_matrix num_of_houses 1;;
  vector_w <- malloc_matrix (num_of_attributes + 1) 1;;
  matrix_x <- insertZeroes matrix_x num_of_houses (num_of_attributes + 1);;
  vector_y <- insertZeroes vector_y num_of_houses 1;;
  vector_w <- insertZeroes vector_w (num_of_attributes + 1) 1;;
  for_up 0 num_of_houses (fun i =>
    store matrix_x i 0 1%F;;
    for_up 1 (num_of_attributes + 1) (fun j =>
      fscanf_lf file1 matrix_x i j);;
    fscanf_lf file1 vector_y i 0);;
  transpose_x <- malloc_matrix (num_of_attributes + 1) num_of_houses;;
  transpose_x <- insertZeroes transpose_x (num_of_attributes + 1) num_of_houses;;
  transpose_x <- transpose matrix_x transpose_x num_of_houses (num_of_attributes + 1);;
  product_x <- malloc_matrix (num_of_attributes + 1) (num_of_attributes + 1);;
  product_x <- insertZeroes product_x (num_of_attributes + 1) (num_of_attributes + 1);;
  product_x <- multiply transpose_x matrix_x product_x
                 (num_of_attributes + 1) (num_of_attributes + 1) num_of_houses;;
  inverse_x <- malloc_matrix (num_of_attributes + 1) (num_of_attributes + 1);;
  inverse_x <- insertZeroes inverse_x (num_of_attributes + 1) (num_of_attributes + 1);;
  inverse_x <- inverse product_x (num_of_attributes + 1) (num_of_attributes + 1);;
  result_x <- malloc_matrix (num_of_attributes + 1) num_of_houses;;
  result_x <- insertZeroes result_x (num_of_attributes + 1) num_of_houses;;
  result_x <- multiply inverse_x transpose_x result_x
                (num_of_attributes + 1) num_of_houses (num_of_attributes + 1);;
  vector_w <- multiply result_x vector_y vector_w
                (num_of_attributes + 1) 1 num_of_houses;;
  ret (Training num_of_attributes num_of_houses matrix_x vector_y vector_w
         transpose_x product_x inverse_x result_x).

(** [main], lines 216-259: the second file.  The result is the exit
    status. *)
Definition main_estimate (t : training) (data : file) : M F Z :=
  hdr <- fopen file2 data;;
  let num_of_attributes_2 := hdr.1 in
  let num_of_houses_2 := hdr.2 in
  if decide (num_of_attributes t ≠ num_of_attributes_2)
  then printf ("error" ++ String "010" "");; ret 0%Z
  else
    estimator_x <- malloc_matrix num_of_houses_2 (num_of_attributes_2 + 1);;
    estimator_y <- malloc_matrix num_of_houses_2 1;;
    estimator_x <- insertZeroes estimator_x num_of_houses_2 (num_of_attributes_2 + 1);;
    estimator_y <- insertZeroes estimator_y num_of_houses_2 1;;
    for_up 0 num_of_houses_2 (fun i =>
      store estimator_x i 0 1%F;;
      for_up 1 (num_of_attributes_2 + 1) (fun j =>
        fscanf_lf file2 estimator_x i j));;
    estimator_y <- multiply estimator_x (vector_w t) estimator_y
                     num_of_houses_2 1 (num_of_attributes_2 + 1);;
    printPriceMatrix estimator_y num_of_houses_2 1;;
    ret 0%Z.

Definition main (train data : file) : M F Z :=
  t <- main_train train;;
  main_estimate t data.

(** The process starts with an empty heap and nothing printed. *)
Definition start : world F := World [] [] [] "" [].

End Program.

Arguments file F : clear implicits.

(** ** Specification-level definitions *)

Section Spec.

Context {F : Type} `{Scalar F} `{Libc F}.

Abbreviation mat := (list (list F)).

(** [X] is a rectangular [rows] by [cols] block. *)
Definition is_matrix (rows cols : nat) (X : mat) : Prop :=
  length X = rows /\ Forall (fun row => length row = cols) X.

(** [g 0 + g 1 + ... + g (n - 1)], added in the order of the loop. *)
Fixpoint sum_upto (n : nat) (g : nat -> F) : F :=
  match n with
  | O => 0%F
  | S m => (sum_upto m g + g m)%F
  end.

(** [r], [r + g 0], [(r + g 0) + g 1], ...: the value of a cell to which a
    loop adds [g 0], ..., [g (n - 1)], one after the other. *)
Fixpoint accumulate (r : F) (n : nat) (g : nat -> F) : F :=
  match n with
  | O => r
  | S m => (accumulate r m g + g m)%F
  end.

(** The [rows] by [cols] block whose cell at row [i], column [j] is
    [g i j]. *)
Definition tabulate (rows cols : nat) (g : nat -> nat -> F) : mat :=
  map (fun i => map (fun j => g i j) (seq 0 cols)) (seq 0 rows).

Definition delta (i j : nat) : F := if decide (i = j) then 1%F else 0%F.

(** The block of zeros and the identity. *)
Definition mat_zero (rows cols : nat) : mat :=
  tabulate rows cols (fun _ _ => 0%F).

Definition mat_id (n : nat) : mat := tabulate n n delta.

(** The [rows] by [cols] product of [A] and [B] over [inner] terms. *)
Definition mat_prod (A B : mat) (rows cols inner : nat) : mat :=
  tabulate rows cols (fun i j =>
    sum_upto inner (fun k => cell A i k * cell B k j)%F).

Definition mat_transpose (A : mat) (rows cols : nat) : mat :=
  tabulate cols rows (fun i j => cell A j i).

(** *** Elimination without row exchange, on cell values

    The row operations of [inverse] (lines 51-74) read as functions on the
    cells of the pair ([matrix], [identity_matrix]). *)

Definition cells : Type := nat -> nat -> F.

(** Lines 52-56: row [p] of both blocks is divided by [matrix[p][p]]. *)
Definition scale_op (p : nat) (s : cells * cells) : cells * cells :=
  let f := s.1 p p in
  (fun i j => if decide (i = p) then (s.1 i j / f)%F else s.1 i j,
   fun i j => if decide (i = p) then (s.2 i j / f)%F else s.2 i j).

(** Lines 58-62 and 68-72: [matrix[i][p]] times row [p] is taken from
    row [i] of both blocks. *)
Definition elim_op (p i : nat) (s : cells * cells) : cells * cells :=
  let f := s.1 i p in
  (fun r j => if decide (r = i) then (s.1 r j - f * s.1 p j)%F else s.1 r j,
   fun r j => if decide (r = i) then (s.2 r j - f * s.2 p j)%F else s.2 r j).

Fixpoint iter_count {S : Type} (n i : nat) (step : nat -> S -> S) (s : S) : S :=
  match n with
  | O => s
  | Datatypes.S n' => iter_count n' (Datatypes.S i) step (step i s)
  end.

Definition iter_up {S : Type} (lo hi : nat) (step : nat -> S -> S) (s : S) : S :=
  iter_count (hi - lo) lo step s.

Fixpoint iter_down {S : Type} (n : nat) (step : nat -> S -> S) (s : S) : S :=
  match n with
  | O => s
  | Datatypes.S k => iter_down k step (step k s)
  end.

(** One turn of the loop of lines 51-64. *)
Definition forward_step (n p : nat) (s : cells * cells) : cells * cells :=
  iter_up (p + 1) n (elim_op p) (scale_op p s).

(** One turn of the loop of lines 66-74. *)
Definition backward_step (p : nat) (s : cells * cells) : cells * cells :=
  iter_down p (elim_op p) s.

Definition gauss_jordan (n : nat) (s : cells * cells) : cells * cells :=
  iter_down n backward_step (iter_up 0 n (forward_step n) s).

(** The value [f] that line 52 reads in turn [p]: the [p]-th pivot. *)
Definition pivot (n : nat) (a : cells) (p : nat) : F :=
  (iter_up 0 p (forward_step n) (a, delta)).1 p p.

(** Elimination meets no zero pivot on the [n] by [n] block [A]. *)
Definition no_zero_pivot (n : nat) (A : mat) : Prop :=
  forall p, p < n -> pivot n (cell A) p <> 0%F.

Definition no_zero_pivotb `{EqDecision F} (n : nat) (A : mat) : bool :=
  forallb (fun p => negb (bool_decide (pivot n (cell A) p = 0%F))) (seq 0 n).

(** *** The data of the two files *)

(** The training matrix: a leading 1 and then the attributes of each row;
    a cell for which the file has no number keeps its 0. *)
Definition design (f : file F) : mat :=
  tabulate (houses f) (attributes f + 1) (fun i j =>
    if decide (j = 0) then 1%F
    else nth (i * (attributes f + 1) + (j - 1)) (numbers f) 0%F).

Definition targets (f : file F) : mat :=
  tabulate (houses f) 1 (fun i _ =>
    nth (i * (attributes f + 1) + attributes f) (numbers f) 0%F).

(** The query matrix: as [design], for rows without a target. *)
Definition query (f : file F) : mat :=
  tabulate (houses f) (attributes f + 1) (fun i j =>
    if decide (j = 0) then 1%F
    else nth (i * attributes f + (j - 1)) (numbers f) 0%F).

Definition newline : string := String "010" "".

(** One line per row: the first cell of the row under [%.0f]. *)
Fixpoint price_lines (Y : mat) (rows : nat) : string :=
  match rows with
  | O => ""
  | S r => price_lines Y r ++ fmt_0f (cell Y r 0) ++ newline
  end.

(** *** Invariants of the elimination *)

(** The second block times the original is the first block. *)
Definition left_linked (n : nat) (a0 : cells) (s : cells * cells) : Prop :=
  forall i j, i < n -> j < n ->
    sum_upto n (fun k => s.2 i k * a0 k j)%F = s.1 i j.

(** Some [g] undoes the row operations made so far. *)
Definition right_linked (n : nat) (a0 : cells) (s : cells * cells) : Prop :=
  exists g : cells,
    (forall i j, i < n -> j < n ->
       sum_upto n (fun k => g i k * s.1 k j)%F = a0 i j) /\
    (forall i j, i < n -> j < n ->
       sum_upto n (fun k => g i k * s.2 k j)%F = delta i j).

Definition linked (n : nat) (a0 : cells) (s : cells * cells) : Prop :=
  left_linked n a0 s /\ right_linked n a0 s.

(** Columns before [p] have 1 on the diagonal and 0 below it. *)
Definition lower_cleared (n p : nat) (a : cells) : Prop :=
  forall c, c < p ->
    a c c = 1%F /\ forall r, c < r -> r < n -> a r c = 0%F.

(** Columns from [p] on have 0 above the diagonal. *)
Definition upper_cleared (n p : nat) (a : cells) : Prop :=
  forall c r, p <= c -> c < n -> r < c -> a r c = 0%F.

(** The second block is lower triangular, with 1 on the diagonal from row
    [p] on. *)
Definition unit_lower (n p : nat) (b : cells) : Prop :=
  (forall r k, r < k -> k < n -> b r k = 0%F) /\
  (forall r, p <= r -> r < n -> b r r = 1%F).

(** [A] sends no vector but 0 to 0. *)
Definition nonsingular (n : nat) (A : mat) : Prop :=
  forall v : nat -> F,
    (forall i, i < n -> sum_upto n (fun k => cell A i k * v k)%F = 0%F) ->
    forall k, k < n -> v k = 0%F.

(** The loop over [ct] of lines 59-62, which lines 69-72 repeat. *)
Definition subtract_row (matrix identity_matrix : loc) (f : F)
    (i p rows : nat) : M F unit :=
  for_up 0 rows (fun ct =>
    x <- load matrix i ct;;
    xp <- load matrix p ct;;
    store matrix i ct (x - f * xp)%F;;
    y <- load identity_matrix i ct;;
    yp <- load identity_matrix p ct;;
    store identity_matrix i ct (y - f * yp)%F).

(** The store in which the argument of [inverse], at [mx], holds [X] and
    the block it allocated, at [idl], holds [Y]. *)
Definition both (mx idl : loc) (w1 : world F) (X Y : mat) : world F :=
  upd idl Y (upd mx X w1).

(** The store holds the pair of blocks whose cells are [s]. *)
Definition holds (n : nat) (mx idl : loc) (w1 : world F)
    (s : cells * cells) (w : world F) : Prop :=
  exists X Y, w = both mx idl w1 X Y /\ is_matrix n n X /\ is_matrix n n Y /\
    (forall i j, i < n -> j < n -> cell X i j = s.1 i j) /\
    (forall i j, i < n -> j < n -> cell Y i j = s.2 i j).

(** A computation that leaves every block but the one at [d] as it was. *)
Definition writes_only {A : Type} (d : loc) (c : M F A) : Prop :=
  forall w x w', c w = Some (x, w') ->
    forall l, l <> d -> mem w' !! l = mem w !! l.

(** *** Reading the history of calls *)

Definition is_in (d : loc) (l : list loc) : bool := existsb (Nat.eqb d) l.

Definition without (d : loc) (l : list loc) : list loc :=
  List.filter (fun x => negb (Nat.eqb x d)) l.

(** Every call that takes a destination gets a block that [insertZeroes]
    has cleared and that no call has written since; [cleared] lists the
    blocks that are in this state before the calls of [l]. *)
Fixpoint fresh_destinations (cleared : list loc) (l : list call) : bool :=
  match l with
  | [] => true
  | call_insertZeroes m _ _ :: l' => fresh_destinations (m :: cleared) l'
  | call_transpose _ d _ _ :: l' =>
      is_in d cleared && fresh_destinations (without d cleared) l'
  | call_multiply _ _ d _ _ _ :: l' =>
      is_in d cleared && fresh_destinations (without d cleared) l'
  | call_inverse m _ _ :: l' => fresh_destinations (without m cleared) l'
  | call_printPriceMatrix _ _ _ :: l' => fresh_destinations cleared l'
  end.

(** The blocks that [insertZeroes] was called on. *)
Fixpoint cleared_blocks (l : list call) : list loc :=
  match l with
  | [] => []
  | call_insertZeroes m _ _ :: l' => m :: cleared_blocks l'
  | _ :: l' => cleared_blocks l'
  end.

(** The calls that make up the regression. *)
Definition is_regression_call (c : call) : bool :=
  match c with
  | call_transpose _ _ _ _ | call_inverse _ _ _
  | call_multiply _ _ _ _ _ _ => true
  | _ => false
  end.

(** Some step of the regression has been carried out. *)
Definition regression_attempted (w : world F) : bool :=
  existsb is_regression_call (calls w).

(** *** The state of [main] after the training part *)

(** The product of the transposed training matrix and the training
    matrix. *)
Definition gram (f : file F) : mat :=
  mat_prod (mat_transpose (design f) (houses f) (attributes f + 1)) (design f)
    (attributes f + 1) (attributes f + 1) (houses f).

(** The blocks of the training part, in the order of their allocation. *)
Definition train_vars (f : file F) : training :=
  Training (attributes f) (houses f) 0 1 2 3 4 6 7.

(** The calls of the training part, lines 148-210. *)
Definition train_calls (f : file F) : list call :=
  let a := attributes f in
  let h := houses f in
  [call_insertZeroes 0 h (a + 1);
   call_insertZeroes 1 h 1;
   call_insertZeroes 2 (a + 1) 1;
   call_insertZeroes 3 (a + 1) h;
   call_transpose 0 3 h (a + 1);
   call_insertZeroes 4 (a + 1) (a + 1);
   call_multiply 3 0 4 (a + 1) (a + 1) h;
   call_insertZeroes 5 (a + 1) (a + 1);
   call_inverse 4 (a + 1) (a + 1);
   call_insertZeroes 7 (a + 1) h;
   call_multiply 6 3 7 (a + 1) h (a + 1);
   call_multiply 7 1 2 (a + 1) 1 h].

(** The calls of lines 242-255. *)
Definition estimate_calls (f : file F) : list call :=
  let a := attributes f in
  let h := houses f in
  [call_insertZeroes 8 h (a + 1);
   call_insertZeroes 9 h 1;
   call_multiply 8 2 9 h 1 (a + 1);
   call_printPriceMatrix 9 h 1].

(** The coefficient vector, given the block [Inv] that [inverse]
    returned: [Inv] times the transposed training matrix times the
    targets. *)
Definition coefficients (f : file F) (Inv : mat) : mat :=
  let a := attributes f in
  let h := houses f in
  mat_prod (mat_prod Inv (mat_transpose (design f) h (a + 1)) (a + 1) h (a + 1))
    (targets f) (a + 1) 1 h.

(** The heap after the training part, where [P] is what [inverse] left in
    [product_x] and [Inv] is the block it returned. *)
Definition trained (f : file F) (P Inv : mat) : world F :=
  let a := attributes f in
  let h := houses f in
  let Xt := mat_transpose (design f) h (a + 1) in
  World [design f; targets f; coefficients f Inv; Xt;
         P; mat_zero (a + 1) (a + 1); Inv; mat_prod Inv Xt (a + 1) h (a + 1)]
        (drop (h * (a + 1)) (numbers f)) [] "" (train_calls f).

(** The predictions: the query matrix times the coefficient vector. *)
Definition predictions (train data : file F) (Inv : mat) : mat :=
  mat_prod (query data) (coefficients train Inv)
    (houses data) 1 (attributes data + 1).

(** The state in which [main] returns after the check of line 227 has
    failed. *)
Definition rejected (train data : file F) (P Inv : mat) : world F :=
  World (mem (trained train P Inv)) (in1 (trained train P Inv))
        (numbers data) ("error" ++ newline) (train_calls train).

(** The state in which [main] returns after printing the predictions. *)
Definition estimated (train data : file F) (P Inv : mat) : world F :=
  World (mem (trained train P Inv) ++
           [query data; predictions train data Inv])
        (in1 (trained train P Inv))
        (drop (houses data * attributes data) (numbers data))
        (price_lines (predictions train data Inv) (houses data))
        (train_calls train ++ estimate_calls data).

(** The world [w] after [s] has been printed. *)
Definition printed (s : string) (w : world F) : world F :=
  World (mem w) (in1 w) (in2 w) (out w ++ s) (calls w).

End Spec.

(** ** The rest of the file and of the specification *)

(** The conversion that [printf] performs for [%lf]. *)
Class Libc_lf (F : Type) := {
  fmt_lf : F -> string
}.

Section Further.

Context {F : Type} `{Scalar F} `{Libc F} `{Libc_lf F}.

Abbreviation mat := (list (list F)).

(** Lines 98-107.  [main] does not call [printMatrix], and the history of
    calls has no entry for it. *)
Definition printMatrix (matrix : loc) (rows cols : nat) : M F unit :=
  for_up 0 rows (fun i =>
    for_up 0 cols (fun j =>
      x <- load matrix i j;;
      printf (fmt_lf x ++ " "));;
    printf (String "010" "")).

(** The first [cols] cells of row [i], each as [fmt] prints it, one after
    the other. *)
Fixpoint row_text (fmt : F -> string) (Y : mat) (i cols : nat) : string :=
  match cols with
  | O => ""
  | S c => row_text fmt Y i c ++ fmt (cell Y i c)
  end.

(** The first [rows] rows, each followed by a line break. *)
Fixpoint rows_text (fmt : F -> string) (Y : mat) (rows cols : nat) : string :=
  match rows with
  | O => ""
  | S r => rows_text fmt Y r cols ++ row_text fmt Y r cols ++ newline
  end.

(** The square block that has the lower triangle of [S] on both sides of
    the diagonal. *)
Definition lower_mirrored (n : nat) (S : mat) : mat :=
  tabulate n n (fun i j => cell S (Nat.max i j) (Nat.min i j)).

(** What the row operations of [inverse] leave in its argument and in the
    block it returns. *)
Definition eliminated (n : nat) (A : mat) : mat :=
  tabulate n n (gauss_jordan n (cell A, delta)).1.

Definition inverted (n : nat) (A : mat) : mat :=
  tabulate n n (gauss_jordan n (cell A, delta)).2.

(** The state in which the training part ends, and the coefficient vector
    it holds. *)
Definition after_training (f : file F) : world F :=
  trained f (eliminated (attributes f + 1) (gram f))
            (inverted (attributes f + 1) (gram f)).

(** The state in which [main] returns. *)
Definition after_main (train data : file F) : world F :=
  if decide (attributes train = attributes data)
  then estimated train data (eliminated (attributes train + 1) (gram train))
                            (inverted (attributes train + 1) (gram train))
  else rejected train data (eliminated (attributes train + 1) (gram train))
                           (inverted (attributes train + 1) (gram train)).

(** The file [f] with other numbers after its header. *)
Definition with_numbers (f : file F) (l : list F) : file F :=
  File (attributes f) (houses f) l.

(** Both blocks of the elimination hold the identity of size [n]. *)
Definition both_identity (n : nat) (s : cells (F := F) * cells (F := F)) : Prop :=
  forall i j, i < n -> j < n -> s.1 i j = delta i j /\ s.2 i j = delta i j.

End Further.

(** ** The rationals

    An exact arithmetic, for the statements that are about one.  Division
    by 0 gives 0 here; no statement below rests on it. *)

#[global] Instance Qc_scalar : Scalar Qc := {|
  zero := Q2Qc 0;
  one := 1%Qc;
  add := Qcplus;
  mul := Qcmult;
  sub := Qcminus;
  div := Qcdiv
|}.

#[global] Instance Qc_exact : Exact Qc := {|
  opp := Qcopp;
  inv := Qcinv;
  scalar_field := Qcft
|}.

(** The integer nearest to [n / d], the even one of the two when [n / d]
    is half-way, for [n >= 0]: the rounding of [printf] in the default
    rounding mode. *)
Definition round_half_even (n : Z) (d : positive) : Z :=
  let q := (n / Zpos d)%Z in
  let r := (n mod Zpos d)%Z in
  match (2 * r ?= Zpos d)%Z with
  | Lt => q
  | Gt => (q + 1)%Z
  | Eq => if Z.even q then q else (q + 1)%Z
  end.

Definition decimal (z : Z) : string :=
  NilZero.string_of_uint (N.to_uint (Z.to_N z)).

(** [%.0f]: a minus sign for a negative value, then the digits of the
    rounded magnitude; no decimal point. *)
Definition fmt_0f_Qc (x : Qc) : string :=
  let n := Qnum (this x) in
  let d := Qden (this x) in
  (if (n <? 0)%Z then "-" else "") ++ decimal (round_half_even (Z.abs n) d).

(** What the specification says instead: the value cut off at its integer
    part. *)
Definition fmt_truncated (x : Qc) : string :=
  let n := Qnum (this x) in
  let d := Qden (this x) in
  (if (n <? 0)%Z then "-" else "") ++ decimal (Z.abs n / Zpos d).

#[global] Instance Qc_libc : Libc Qc := {|
  indet := Q2Qc (-1);
  fmt_0f := fmt_0f_Qc
|}.

(** A string without decimal point and without line break. *)
Fixpoint plain (s : string) : bool :=
  match s with
  | EmptyString => true
  | String c s' =>
      negb (Ascii.eqb c ".") && negb (Ascii.eqb c "010") && plain s'
  end.

(** The number of line breaks of a string. *)
Fixpoint line_count (s : string) : nat :=
  match s with
  | EmptyString => 0
  | String c s' => (if Ascii.eqb c "010" then 1 else 0) + line_count s'
  end.

(** The cells of a block of rationals as fractions in lowest terms. *)
Definition fractions (X : list (list Qc)) : list (list Q) :=
  map (map this) X.

(** The integer [z] as a rational. *)
Definition Qz (z : Z) : Qc := Q2Qc (inject_Z z).

(** *** Concrete inputs *)

(** One attribute, the two rows (1,3) and (2,5). *)
Definition line_train : file Qc := File 1 2 [Qz 1; Qz 3; Qz 2; Qz 5].

(** One attribute, the row (4). *)
Definition line_query : file Qc := File 1 1 [Qz 4].

(** A query file that declares two attributes. *)
Definition wide_query : file Qc := File 2 1 [Qz 4; Qz 5].

(** No attribute, one row with target 11/4. *)
Definition flat_train : file Qc := File 0 1 [Q2Qc (11 # 4)].

(** No attribute, one row. *)
Definition flat_query : file Qc := File 0 1 [].

(** A heap with a 2 by 2 block, its transpose-sized neighbour and a
    block of zeros. *)
Definition sample : world Qc :=
  World [ [[Qz 2; Qz 3]; [Qz 3; Qz 5]];
          [[Qz 1; Qz 0]; [Qz 4; Qz 1]];
          [[Qz 0; Qz 0]; [Qz 0; Qz 0]] ] [] [] "" [].

(** A heap of eight 2 by 2 blocks: three with numbers, the identity and
    four blocks of zeros. *)
Definition bench : world Qc :=
  World [ [[Qz 2; Qz 3]; [Qz 3; Qz 5]];
          [[Qz 1; Qz 0]; [Qz 4; Qz 1]];
          [[Qz 0; Qz 1]; [Qz 1; Qz 1]];
          mat_id 2;
          mat_zero 2 2; mat_zero 2 2; mat_zero 2 2; mat_zero 2 2 ]
        [] [] "" [].

(** The last six digits of [z], for [0 <= z < 1000000]. *)
Definition six_digits (z : Z) : string :=
  match decimal (1000000 + z) with
  | String _ s => s
  | EmptyString => ""
  end.

(** [%lf]: a minus sign for a negative value, then the magnitude rounded
    to six digits after the decimal point. *)
Definition fmt_lf_Qc (x : Qc) : string :=
  let n := Qnum (this x) in
  let d := Qden (this x) in
  let m := round_half_even (Z.abs n * 1000000) d in
  (if (n <? 0)%Z then "-" else "") ++
  decimal (m / 1000000) ++ "." ++ six_digits (m mod 1000000).

#[global] Instance Qc_libc_lf : Libc_lf Qc := {|
  fmt_lf := fmt_lf_Qc
|}.

(** ** IEEE binary64

    The scalars of the program itself: the primitive floating-point
    numbers, whose operations are those of binary64 with rounding to
    nearest, ties to even, each operation rounded on its own, as the
    program computes when it is compiled for x86-64. *)

#[global] Instance double_scalar : Scalar float := {|
  zero := 0%float;
  one := 1%float;
  add := PrimFloat.add;
  mul := PrimFloat.mul;
  sub := PrimFloat.sub;
  div := PrimFloat.div
|}.

Definition sign_text (s : bool) : string := if s then "-" else "".

(** The integer nearest to [m * 2 ^ e], the even one of two. *)
Definition nearest_integer (m : positive) (e : Z) : Z :=
  if (0 <=? e)%Z then (Zpos m * 2 ^ e)%Z
  else round_half_even (Zpos m) (Z.to_pos (2 ^ (- e))).

(** [%.0f] on a [double], which is 0, infinite, not a number, or
    [m * 2 ^ e] with a sign: the sign, then the digits of the nearest
    integer, or the text [inf] or [nan].  A not-a-number has no sign in
    [float]; the one that the arithmetic of the program produces on x86-64
    has its sign bit set, and glibc prints it as [-nan]. *)
Definition fmt_0f_double (x : float) : string :=
  match Prim2SF x with
  | S754_zero s => sign_text s ++ "0"
  | S754_infinity s => sign_text s ++ "inf"
  | S754_nan => "-nan"
  | S754_finite s m e => sign_text s ++ decimal (nearest_integer m e)
  end.

(** What the specification says instead: the value cut off at its integer
    part. *)
Definition fmt_truncated_double (x : float) : string :=
  match Prim2SF x with
  | S754_zero s => sign_text s ++ "0"
  | S754_infinity s => sign_text s ++ "inf"
  | S754_nan => "-nan"
  | S754_finite s m e =>
      sign_text s ++
      decimal (if (0 <=? e)%Z then Zpos m * 2 ^ e
               else Zpos m / 2 ^ (- e))%Z
  end.

#[global] Instance double_libc : Libc float := {|
  indet := PrimFloat.nan;
  fmt_0f := fmt_0f_double
|}.

(** [n] is an integer nearest to [m * 2 ^ e], and it is even if there are
    two. *)
Definition nearest_to (n : Z) (m : positive) (e : Z) : Prop :=
  if (0 <=? e)%Z then n = (Zpos m * 2 ^ e)%Z
  else
    (2 * Z.abs (n * 2 ^ (- e) - Zpos m) <= 2 ^ (- e))%Z /\
    ((2 * Z.abs (n * 2 ^ (- e) - Zpos m) = 2 ^ (- e))%Z -> Z.even n = true).

(** *** Concrete inputs in binary64 *)

(** One attribute, the two rows (1,3) and (2,5), and the query row (4). *)
Definition line_train_d : file float := File 1 2 [1; 3; 2; 5]%float.

Definition line_query_d : file float := File 1 1 [4%float].

(** No attribute, one row with target 2.75, and a query row. *)
Definition flat_train_d : file float := File 0 1 [2.75%float].

Definition flat_query_d : file float := File 0 1 [].

(** One attribute, the two rows (100000000, 1) and (100000001, 2), in
    binary64 and as rationals. *)
Definition steep_train_d : file float :=
  File 1 2 [100000000; 1; 100000001; 2]%float.

Definition steep_train : file Qc :=
  File 1 2 [Qz 100000000; Qz 1; Qz 100000001; Qz 2].

(** A heap with a row (1 1), a column (1 1) and a 1 by 1 block that holds
    2 ^ 53. *)
Definition large_cell : world float :=
  World [ [[1; 1]]; [[1]; [1]]; [[9007199254740992]] ]%float [] [] "" [].



(** The heap [sample] in binary64. *)
Definition sample_d : world float :=
  World [ [[2; 3]; [3; 5]]; [[1; 0]; [4; 1]]; [[0; 0]; [0; 0]] ]%float
        [] [] "" [].

(** The heap [bench] in binary64. *)
Definition bench_d : world float :=
  World [ [[2; 3]; [3; 5]]%float;
          [[1; 0]; [4; 1]]%float;
          [[0; 1]; [1; 1]]%float;
          mat_id 2;
          mat_zero 2 2; mat_zero 2 2; mat_zero 2 2; mat_zero 2 2 ]
        [] [] "" [].

(** A training file that declares one attribute and no row. *)
Definition no_rows_d : file float := File 1 0 [].

(** ** Correctness *)

Section Correctness.

Context {F : Type} `{Scalar F} `{Libc F}.

Abbreviation mat := (list (list F)).

(** *** Matrices as lists of rows *)

Lemma is_matrix_lookup rows cols (X : mat) i :
  is_matrix rows cols X -> i < rows ->
  exists row, X !! i = Some row /\ length row = cols.
Proof.
  intros [Hl Hf] Hi.
  destruct (lookup_lt_is_Some_2 X i) as [row Hrow]; [lia|].
  exists row; split; [done|].
  by apply (Forall_lookup_1 _ _ _ _ Hf Hrow).
Qed.

Lemma cell_lookup rows cols (X : mat) i j :
  is_matrix rows cols X -> i < rows -> j < cols ->
  exists row, X !! i = Some row /\ length row = cols /\
              row !! j = Some (cell X i j).
Proof.
  intros HX Hi Hj.
  destruct (is_matrix_lookup _ _ _ _ HX Hi) as (row & Hrow & Hlen).
  exists row; split; [done|split; [done|]].
  unfold cell. rewrite Hrow.
  destruct (lookup_lt_is_Some_2 row j) as [x Hx]; [lia|].
  by rewrite Hx.
Qed.

Lemma is_matrix_mset rows cols (X : mat) i j v :
  is_matrix rows cols X -> is_matrix rows cols (mset X i j v).
Proof.
  intros [Hl Hf]. unfold mset.
  destruct (X !! i) as [row|] eqn:Hrow; [|done].
  split; [by rewrite length_insert|].
  apply Forall_insert; [done|].
  rewrite length_insert. by apply (Forall_lookup_1 _ _ _ _ Hf Hrow).
Qed.

Lemma cell_mset rows cols (X : mat) i j v i' j' :
  is_matrix rows cols X -> i < rows -> j < cols ->
  cell (mset X i j v) i' j' =
  if decide (i' = i /\ j' = j) then v else cell X i' j'.
Proof.
  intros HX Hi Hj.
  destruct (is_matrix_lookup _ _ _ _ HX Hi) as (row & Hrow & Hlen).
  unfold mset, cell. rewrite Hrow.
  destruct (decide (i' = i)) as [->|Hne].
  - rewrite list_lookup_insert_eq by (by eapply lookup_lt_Some).
    rewrite Hrow.
    destruct (decide (j' = j)) as [->|Hnj].
    + rewrite list_lookup_insert_eq by lia. by rewrite decide_True.
    + rewrite list_lookup_insert_ne by done. by rewrite decide_False by tauto.
  - rewrite list_lookup_insert_ne by done. by rewrite decide_False by tauto.
Qed.

Lemma mset_mset (X : mat) i j v v' :
  mset (mset X i j v) i j v' = mset X i j v'.
Proof.
  unfold mset. destruct (X !! i) as [row|] eqn:Hrow; [|by rewrite Hrow].
  rewrite list_lookup_insert_eq by (by eapply lookup_lt_Some).
  by rewrite list_insert_insert_eq, list_insert_insert_eq.
Qed.

Lemma mat_ext rows cols (X Y : mat) :
  is_matrix rows cols X -> is_matrix rows cols Y ->
  (forall i j, i < rows -> j < cols -> cell X i j = cell Y i j) ->
  X = Y.
Proof.
  intros HX HY Hc.
  apply list_eq_same_length with rows; [apply HY|apply HX|].
  intros i rx ry Hi Hx Hy.
  assert (length rx = cols) by (by apply (Forall_lookup_1 _ _ _ _ (proj2 HX) Hx)).
  assert (length ry = cols) by (by apply (Forall_lookup_1 _ _ _ _ (proj2 HY) Hy)).
  apply list_eq_same_length with cols; [done|done|].
  intros j x y Hj Hxj Hyj.
  specialize (Hc i j Hi Hj). unfold cell in Hc.
  by rewrite Hx, Hy, Hxj, Hyj in Hc.
Qed.

Lemma mset_id rows cols (X : mat) i j :
  is_matrix rows cols X -> i < rows -> j < cols ->
  mset X i j (cell X i j) = X.
Proof.
  intros HX Hi Hj.
  apply (mat_ext rows cols); [by apply is_matrix_mset|done|].
  intros i' j' _ _. rewrite (cell_mset rows cols) by done.
  case_decide as Hd; [by destruct Hd as [-> ->]|done].
Qed.

Lemma is_matrix_tabulate rows cols (g : nat -> nat -> F) :
  is_matrix rows cols (tabulate rows cols g).
Proof.
  split.
  - unfold tabulate. by rewrite length_map, length_seq.
  - unfold tabulate. apply Forall_forall. intros row Hin.
    apply list_elem_of_fmap in Hin as (i & -> & _).
    by rewrite length_map, length_seq.
Qed.

Lemma cell_tabulate rows cols (g : nat -> nat -> F) i j :
  i < rows -> j < cols -> cell (tabulate rows cols g) i j = g i j.
Proof.
  intros Hi Hj. unfold cell, tabulate.
  rewrite list_lookup_fmap, lookup_seq_lt by done. simpl.
  rewrite list_lookup_fmap, lookup_seq_lt by done. done.
Qed.

(** *** The store *)

Lemma upd_upd m (X Y : mat) (w : world F) : upd m Y (upd m X w) = upd m Y w.
Proof. unfold upd, set_mem; simpl. by rewrite list_insert_insert_eq. Qed.

Lemma upd_id m (X : mat) (w : world F) : mem w !! m = Some X -> upd m X w = w.
Proof.
  intros Hm. destruct w; unfold upd, set_mem; simpl in *.
  by rewrite list_insert_id.
Qed.

Lemma upd_comm m m' (X Y : mat) (w : world F) :
  m <> m' -> upd m X (upd m' Y w) = upd m' Y (upd m X w).
Proof.
  intros Hne. unfold upd, set_mem; simpl.
  by rewrite list_insert_insert_ne.
Qed.

Lemma mem_upd_eq m (X : mat) (w : world F) :
  m < length (mem w) -> mem (upd m X w) !! m = Some X.
Proof. intros Hm. simpl. by rewrite list_lookup_insert_eq. Qed.

Lemma mem_upd_ne m m' (X : mat) (w : world F) :
  m <> m' -> mem (upd m X w) !! m' = mem w !! m'.
Proof. intros Hm. simpl. by rewrite list_lookup_insert_ne. Qed.

Lemma length_mem_upd m (X : mat) (w : world F) :
  length (mem (upd m X w)) = length (mem w).
Proof. simpl. by rewrite length_insert. Qed.

Lemma bind_some {A B} (c : M F A) (k : A -> M F B) w a w' :
  c w = Some (a, w') -> bind c k w = k a w'.
Proof. intros Hc. unfold bind. by rewrite Hc. Qed.

Lemma load_ok rows cols m (X : mat) i j (w : world F) :
  mem w !! m = Some X -> is_matrix rows cols X -> i < rows -> j < cols ->
  load m i j w = Some (cell X i j, w).
Proof.
  intros Hm HX Hi Hj.
  destruct (cell_lookup _ _ _ _ _ HX Hi Hj) as (row & Hrow & _ & Hx).
  unfold load. by rewrite Hm, Hrow, Hx.
Qed.

Lemma store_ok rows cols m (X : mat) i j v (w : world F) :
  mem w !! m = Some X -> is_matrix rows cols X -> i < rows -> j < cols ->
  store m i j v w = Some (tt, upd m (mset X i j v) w).
Proof.
  intros Hm HX Hi Hj.
  destruct (is_matrix_lookup _ _ _ _ HX Hi) as (row & Hrow & Hlen).
  unfold store, mset. rewrite Hm, Hrow.
  by rewrite decide_True by lia.
Qed.

(** *** Loops *)

Lemma for_count_inv (Inv : nat -> world F -> Prop) body n :
  forall i w,
  Inv i w ->
  (forall k w, i <= k < i + n -> Inv k w ->
     exists w', body k w = Some (tt, w') /\ Inv (S k) w') ->
  exists w', for_count n i body w = Some (tt, w') /\ Inv (i + n) w'.
Proof.
  induction n as [|n IH]; intros i w Hinv Hstep; simpl.
  - exists w. rewrite Nat.add_0_r. by split.
  - destruct (Hstep i w) as (w1 & Hb & Hinv1); [lia|done|].
    destruct (IH (S i) w1 Hinv1) as (w2 & Hl & Hinv2).
    { intros k w' Hk. apply Hstep. lia. }
    exists w2. rewrite (bind_some _ _ _ _ _ Hb).
    split; [done|]. by replace (i + S n) with (S i + n) by lia.
Qed.

Lemma for_up_inv (Inv : nat -> world F -> Prop) lo hi body w :
  lo <= hi -> Inv lo w ->
  (forall k w, lo <= k < hi -> Inv k w ->
     exists w', body k w = Some (tt, w') /\ Inv (S k) w') ->
  exists w', for_up lo hi body w = Some (tt, w') /\ Inv hi w'.
Proof.
  intros Hle Hinv Hstep. unfold for_up.
  destruct (for_count_inv Inv body (hi - lo) lo w Hinv) as (w' & Hl & Hw').
  { intros k w' Hk. apply Hstep. lia. }
  exists w'. split; [done|]. by replace hi with (lo + (hi - lo)) by lia.
Qed.

Lemma for_down_inv (Inv : nat -> world F -> Prop) body n :
  forall w,
  Inv n w ->
  (forall k w, k < n -> Inv (S k) w ->
     exists w', body k w = Some (tt, w') /\ Inv k w') ->
  exists w', for_down n body w = Some (tt, w') /\ Inv 0 w'.
Proof.
  induction n as [|n IH]; intros w Hinv Hstep; simpl.
  - exists w. by split.
  - destruct (Hstep n w) as (w1 & Hb & Hinv1); [lia|done|].
    destruct (IH w1 Hinv1) as (w2 & Hl & Hinv2).
    { intros k w' Hk. apply Hstep. lia. }
    exists w2. by rewrite (bind_some _ _ _ _ _ Hb).
Qed.

(** Goals that compare two case analyses on indices. *)
Ltac cases :=
  repeat case_decide;
  first [ done | lia | exfalso; lia
        | destruct_and?; subst; first [done | lia | exfalso; lia] ].

(** A loop nest that gives every cell of the block at [d] the value
    [g i j], one cell per turn, builds [tabulate rows cols g]. *)
Lemma for2_cells d rows cols (body : nat -> nat -> M F unit)
    (g : nat -> nat -> F) (X : mat) (w : world F) :
  mem w !! d = Some X -> is_matrix rows cols X ->
  (forall i j Y, i < rows -> j < cols -> is_matrix rows cols Y ->
     cell Y i j = cell X i j ->
     body i j (upd d Y w) = Some (tt, upd d (mset Y i j (g i j)) w)) ->
  for_up 0 rows (fun i => for_up 0 cols (body i)) w
  = Some (tt, upd d (tabulate rows cols g) w).
Proof.
  intros Hm HX Hbody.
  pose (Inv2 := fun (i j : nat) (w' : world F) =>
    exists Y, w' = upd d Y w /\ is_matrix rows cols Y /\
      forall i' j', i' < rows -> j' < cols ->
        cell Y i' j' = if decide (i' < i \/ (i' = i /\ j' < j))
                       then g i' j' else cell X i' j').
  destruct (for_up_inv (fun i => Inv2 i 0) 0 rows
              (fun i => for_up 0 cols (body i)) w) as (w' & Hrun & HI);
    [lia| | |].
  - exists X. split; [by rewrite upd_id|]. split; [done|].
    intros i' j' _ _. by rewrite decide_False by lia.
  - intros i w1 Hi HI.
    destruct (for_up_inv (Inv2 i) 0 cols (body i) w1) as (w2 & Hrun & HJ);
      [lia|done| |].
    + intros j w2 Hj (Y & -> & HY & Hc).
      exists (upd d (mset Y i j (g i j)) w). split.
      * apply Hbody; [lia|lia|done|].
        rewrite Hc by lia. by rewrite decide_False by lia.
      * exists (mset Y i j (g i j)). split; [done|].
        split; [by apply is_matrix_mset|].
        intros i' j' Hi' Hj'. rewrite (cell_mset rows cols) by (done || lia).
        rewrite Hc by done. cases.
    + exists w2. split; [done|].
      destruct HJ as (Y & -> & HY & Hc). exists Y. split; [done|].
      split; [done|]. intros i' j' Hi' Hj'. rewrite Hc by done.
      cases.
  - rewrite Hrun. destruct HI as (Y & -> & HY & Hc).
    do 3 f_equal. apply (mat_ext rows cols); [done|apply is_matrix_tabulate|].
    intros i j Hi Hj. rewrite Hc, cell_tabulate by done.
    by rewrite decide_True by lia.
Qed.

Lemma load_upd_eq rows cols m (Y : mat) i j (w : world F) :
  m < length (mem w) -> is_matrix rows cols Y -> i < rows -> j < cols ->
  load m i j (upd m Y w) = Some (cell Y i j, upd m Y w).
Proof.
  intros Hm HY Hi Hj. apply (load_ok rows cols); [|done..].
  by apply mem_upd_eq.
Qed.

Lemma load_upd_ne rows cols m a (A Y : mat) i j (w : world F) :
  m <> a -> mem w !! a = Some A -> is_matrix rows cols A ->
  i < rows -> j < cols ->
  load a i j (upd m Y w) = Some (cell A i j, upd m Y w).
Proof.
  intros Hne Ha HA Hi Hj. apply (load_ok rows cols); [|done..].
  by rewrite mem_upd_ne.
Qed.

Lemma store_upd_eq rows cols m (Y : mat) i j v (w : world F) :
  m < length (mem w) -> is_matrix rows cols Y -> i < rows -> j < cols ->
  store m i j v (upd m Y w) = Some (tt, upd m (mset Y i j v) w).
Proof.
  intros Hm HY Hi Hj.
  rewrite (store_ok rows cols m Y) by (done || by apply mem_upd_eq).
  by rewrite upd_upd.
Qed.

(** *** insertZeroes, transpose, multiply *)

Lemma insertZeroes_spec m rows cols (X : mat) (w : world F) :
  mem w !! m = Some X -> is_matrix rows cols X ->
  insertZeroes m rows cols w
  = Some (m, upd m (mat_zero rows cols)
               (entered (call_insertZeroes m rows cols) w)).
Proof.
  intros Hm HX. unfold insertZeroes.
  erewrite bind_some; [|reflexivity].
  erewrite bind_some; [done|].
  apply (for2_cells m rows cols _ _ X); [done|done|].
  intros i j Y Hi Hj HY _.
  apply (store_upd_eq rows cols); [by eapply lookup_lt_Some|done..].
Qed.

Lemma transpose_spec src dst rows cols (S T : mat) (w : world F) :
  src <> dst ->
  mem w !! src = Some S -> mem w !! dst = Some T ->
  is_matrix rows cols S -> is_matrix cols rows T ->
  transpose src dst rows cols w
  = Some (dst, upd dst (mat_transpose S rows cols)
                 (entered (call_transpose src dst rows cols) w)).
Proof.
  intros Hne Hs Hd HS HT. unfold transpose.
  erewrite bind_some; [|reflexivity].
  erewrite bind_some; [done|].
  apply (for2_cells dst cols rows _ _ T); [done|done|].
  intros i j Y Hi Hj HY _.
  erewrite bind_some;
    [|by apply (load_upd_ne rows cols dst src S)].
  apply (store_upd_eq cols rows); [by eapply lookup_lt_Some|done..].
Qed.

(** The innermost loop of [multiply] adds the [inner] products to one
    cell of the destination, one after the other. *)
Lemma multiply_cell a b d rows cols inner (A B Y : mat) i j (w : world F) :
  d <> a -> d <> b ->
  mem w !! a = Some A -> mem w !! b = Some B -> d < length (mem w) ->
  is_matrix rows inner A -> is_matrix inner cols B -> is_matrix rows cols Y ->
  i < rows -> j < cols ->
  for_up 0 inner (fun k =>
    r <- load d i j;;
    x <- load a i k;;
    y <- load b k j;;
    store d i j (r + x * y)%F) (upd d Y w)
  = Some (tt, upd d (mset Y i j
      (accumulate (cell Y i j) inner (fun k => cell A i k * cell B k j)%F)) w).
Proof.
  intros Hda Hdb Ha Hb Hd HA HB HY Hi Hj.
  set (g := fun k => (cell A i k * cell B k j)%F).
  destruct (for_up_inv
    (fun k w' => w' = upd d (mset Y i j (accumulate (cell Y i j) k g)) w)
    0 inner (fun k =>
      r <- load d i j;;
      x <- load a i k;;
      y <- load b k j;;
      store d i j (r + x * y)%F) (upd d Y w)) as (w' & Hrun & ->);
    [lia| | |done].
  - simpl. by rewrite (mset_id rows cols).
  - intros k w' Hk ->. eexists. split; [|reflexivity].
    assert (HZ : is_matrix rows cols
                   (mset Y i j (accumulate (cell Y i j) k g)))
      by (by apply is_matrix_mset).
    erewrite bind_some; [|by apply (load_upd_eq rows cols)].
    erewrite bind_some; [|by apply (load_upd_ne rows inner d a A); try lia].
    erewrite bind_some; [|by apply (load_upd_ne inner cols d b B); try lia].
    rewrite (store_upd_eq rows cols) by done.
    rewrite mset_mset, (cell_mset rows cols) by done.
    by rewrite decide_True by done.
Qed.

Lemma multiply_spec a b d rows cols inner (A B D : mat) (w : world F) :
  d <> a -> d <> b ->
  mem w !! a = Some A -> mem w !! b = Some B -> mem w !! d = Some D ->
  is_matrix rows inner A -> is_matrix inner cols B -> is_matrix rows cols D ->
  multiply a b d rows cols inner w
  = Some (d, upd d (tabulate rows cols (fun i j =>
      accumulate (cell D i j) inner (fun k => cell A i k * cell B k j)%F))
      (entered (call_multiply a b d rows cols inner) w)).
Proof.
  intros Hda Hdb Ha Hb Hd HA HB HD. unfold multiply.
  erewrite bind_some; [|reflexivity].
  erewrite bind_some; [done|].
  apply (for2_cells d rows cols _ _ D); [done|done|].
  intros i j Y Hi Hj HY Hc. rewrite <- Hc.
  apply (multiply_cell a b d rows cols inner A B); try done.
  by eapply lookup_lt_Some.
Qed.

Lemma tabulate_ext rows cols (g g' : nat -> nat -> F) :
  (forall i j, i < rows -> j < cols -> g i j = g' i j) ->
  tabulate rows cols g = tabulate rows cols g'.
Proof.
  intros Hg. apply (mat_ext rows cols); [apply is_matrix_tabulate..|].
  intros i j Hi Hj. rewrite !cell_tabulate by done. by apply Hg.
Qed.

Lemma sum_upto_ext n (g g' : nat -> F) :
  (forall k, k < n -> g k = g' k) -> sum_upto n g = sum_upto n g'.
Proof.
  induction n as [|n IH]; intros Hg; simpl; [done|].
  rewrite IH by (intros; apply Hg; lia). by rewrite Hg by lia.
Qed.

(** Added to 0, the terms give the sum. *)
Lemma accumulate_zero n (g : nat -> F) : accumulate 0%F n g = sum_upto n g.
Proof. induction n as [|n IH]; simpl; [done|by rewrite IH]. Qed.

Lemma multiply_zero a b d rows cols inner (A B : mat) (w : world F) :
  d <> a -> d <> b ->
  mem w !! a = Some A -> mem w !! b = Some B ->
  mem w !! d = Some (mat_zero rows cols) ->
  is_matrix rows inner A -> is_matrix inner cols B ->
  multiply a b d rows cols inner w
  = Some (d, upd d (mat_prod A B rows cols inner)
               (entered (call_multiply a b d rows cols inner) w)).
Proof.
  intros Hda Hdb Ha Hb Hd HA HB.
  rewrite (multiply_spec a b d rows cols inner A B (mat_zero rows cols))
    by (done || apply is_matrix_tabulate).
  do 3 f_equal. apply tabulate_ext. intros i j Hi Hj.
  unfold mat_zero. rewrite cell_tabulate by done. apply accumulate_zero.
Qed.

(** *** Iteration *)

Lemma iter_count_inv {S : Type} (P : nat -> S -> Prop) step n :
  forall i s,
  P i s ->
  (forall k s, i <= k < i + n -> P k s -> P (Datatypes.S k) (step k s)) ->
  P (i + n) (iter_count n i step s).
Proof.
  induction n as [|n IH]; intros i s HP Hstep; simpl.
  - by rewrite Nat.add_0_r.
  - replace (i + Datatypes.S n) with (Datatypes.S i + n) by lia.
    apply IH; [apply Hstep; [lia|done]|].
    intros k s' Hk. apply Hstep. lia.
Qed.

Lemma iter_up_inv {S : Type} (P : nat -> S -> Prop) lo hi step s :
  lo <= hi -> P lo s ->
  (forall k s, lo <= k < hi -> P k s -> P (Datatypes.S k) (step k s)) ->
  P hi (iter_up lo hi step s).
Proof.
  intros Hle HP Hstep. unfold iter_up.
  replace hi with (lo + (hi - lo)) at 1 by lia.
  apply iter_count_inv; [done|]. intros k s' Hk. apply Hstep. lia.
Qed.

Lemma iter_down_inv {S : Type} (P : nat -> S -> Prop) step n :
  forall s,
  P n s ->
  (forall k s, k < n -> P (Datatypes.S k) s -> P k (step k s)) ->
  P 0 (iter_down n step s).
Proof.
  induction n as [|n IH]; intros s HP Hstep; simpl; [done|].
  apply IH; [apply Hstep; [lia|done]|].
  intros k s' Hk. apply Hstep. lia.
Qed.

Lemma iter_count_snoc {S : Type} step n :
  forall i (s : S),
  iter_count (Datatypes.S n) i step s
  = step (i + n) (iter_count n i step s).
Proof.
  induction n as [|n IH]; intros i s.
  - simpl. by rewrite Nat.add_0_r.
  - change (iter_count (Datatypes.S (Datatypes.S n)) i step s)
      with (iter_count (Datatypes.S n) (Datatypes.S i) step (step i s)).
    rewrite IH. simpl. by replace (i + Datatypes.S n) with (Datatypes.S (i + n)) by lia.
Qed.

Lemma iter_up_S {S : Type} step hi (s : S) :
  iter_up 0 (Datatypes.S hi) step s = step hi (iter_up 0 hi step s).
Proof.
  unfold iter_up. rewrite !Nat.sub_0_r. by rewrite iter_count_snoc.
Qed.

(** *** inverse carries out the elimination *)

Lemma for_count_sim {S : Type} (R : S -> world F -> Prop) step body n :
  forall i s w,
  (forall k s w, i <= k < i + n -> R s w ->
     exists w', body k w = Some (tt, w') /\ R (step k s) w') ->
  R s w ->
  exists w', for_count n i body w = Some (tt, w') /\
             R (iter_count n i step s) w'.
Proof.
  induction n as [|n IH]; intros i s w Hstep HR; simpl.
  - by exists w.
  - destruct (Hstep i s w) as (w1 & Hb & HR1); [lia|done|].
    destruct (IH (Datatypes.S i) (step i s) w1) as (w2 & Hl & HR2);
      [|done|].
    { intros k s' w' Hk. apply Hstep. lia. }
    exists w2. by rewrite (bind_some _ _ _ _ _ Hb).
Qed.

Lemma for_up_sim {S : Type} (R : S -> world F -> Prop) step body lo hi s w :
  (forall k s w, lo <= k < hi -> R s w ->
     exists w', body k w = Some (tt, w') /\ R (step k s) w') ->
  R s w ->
  exists w', for_up lo hi body w = Some (tt, w') /\
             R (iter_up lo hi step s) w'.
Proof.
  intros Hstep HR. apply for_count_sim; [|done].
  intros k s' w' Hk. apply Hstep. lia.
Qed.

Lemma for_down_sim {S : Type} (R : S -> world F -> Prop) step body n :
  forall s w,
  (forall k s w, k < n -> R s w ->
     exists w', body k w = Some (tt, w') /\ R (step k s) w') ->
  R s w ->
  exists w', for_down n body w = Some (tt, w') /\
             R (iter_down n step s) w'.
Proof.
  induction n as [|n IH]; intros s w Hstep HR; simpl.
  - by exists w.
  - destruct (Hstep n s w) as (w1 & Hb & HR1); [lia|done|].
    destruct (IH (step n s) w1) as (w2 & Hl & HR2); [|done|].
    { intros k s' w' Hk. apply Hstep. lia. }
    exists w2. by rewrite (bind_some _ _ _ _ _ Hb).
Qed.

Section Inverse.

(** The two blocks that [inverse] works on: its argument at [mx] and the
    block it allocates at [idl]. *)
Variables (n : nat) (mx idl : loc) (w1 : world F).
Hypothesis Hne : mx <> idl.
Hypothesis Hmx : mx < length (mem w1).
Hypothesis Hidl : idl < length (mem w1).

Local Abbreviation both := (both mx idl w1).
Local Abbreviation holds := (holds n mx idl w1).

Lemma both_mx X Y : mem (both X Y) !! mx = Some X.
Proof.
  unfold both. rewrite mem_upd_ne by done. by apply mem_upd_eq.
Qed.

Lemma both_idl X Y : mem (both X Y) !! idl = Some Y.
Proof. unfold both. apply mem_upd_eq. by rewrite length_mem_upd. Qed.

Lemma load_mx X Y i j :
  is_matrix n n X -> i < n -> j < n ->
  load mx i j (both X Y) = Some (cell X i j, both X Y).
Proof. intros. apply (load_ok n n); [apply both_mx|done..]. Qed.

Lemma load_idl X Y i j :
  is_matrix n n Y -> i < n -> j < n ->
  load idl i j (both X Y) = Some (cell Y i j, both X Y).
Proof. intros. apply (load_ok n n); [apply both_idl|done..]. Qed.

Lemma store_mx X Y i j v :
  is_matrix n n X -> i < n -> j < n ->
  store mx i j v (both X Y) = Some (tt, both (mset X i j v) Y).
Proof.
  intros. rewrite (store_ok n n mx X) by (done || apply both_mx).
  unfold both. by rewrite upd_comm, upd_upd by done.
Qed.

Lemma store_idl X Y i j v :
  is_matrix n n Y -> i < n -> j < n ->
  store idl i j v (both X Y) = Some (tt, both X (mset Y i j v)).
Proof.
  intros. rewrite (store_ok n n idl Y) by (done || apply both_idl).
  unfold both. by rewrite upd_upd.
Qed.

(** A loop over the columns that gives row [r0] of the two blocks the
    values [gx] and [gy], one column per turn. *)
Lemma row_loop r0 (body : nat -> M F unit) (gx gy : nat -> F) (X Y : mat) :
  is_matrix n n X -> is_matrix n n Y -> r0 < n ->
  (forall ct X' Y', ct < n -> is_matrix n n X' -> is_matrix n n Y' ->
     (forall i j, i < n -> j < n ->
        cell X' i j = if decide (i = r0 /\ j < ct) then gx j else cell X i j) ->
     (forall i j, i < n -> j < n ->
        cell Y' i j = if decide (i = r0 /\ j < ct) then gy j else cell Y i j) ->
     body ct (both X' Y')
     = Some (tt, both (mset X' r0 ct (gx ct)) (mset Y' r0 ct (gy ct)))) ->
  exists X' Y',
    for_up 0 n body (both X Y) = Some (tt, both X' Y') /\
    is_matrix n n X' /\ is_matrix n n Y' /\
    (forall i j, i < n -> j < n ->
       cell X' i j = if decide (i = r0) then gx j else cell X i j) /\
    (forall i j, i < n -> j < n ->
       cell Y' i j = if decide (i = r0) then gy j else cell Y i j).
Proof.
  intros HX HY Hr Hbody.
  destruct (for_up_inv (fun ct w' =>
    exists X' Y', w' = both X' Y' /\ is_matrix n n X' /\ is_matrix n n Y' /\
      (forall i j, i < n -> j < n ->
         cell X' i j = if decide (i = r0 /\ j < ct) then gx j else cell X i j) /\
      (forall i j, i < n -> j < n ->
         cell Y' i j = if decide (i = r0 /\ j < ct) then gy j else cell Y i j))
    0 n body (both X Y)) as (w' & Hrun & X' & Y' & -> & HX' & HY' & Hcx & Hcy);
    [lia| | |].
  - exists X, Y. split; [done|]. split; [done|]. split; [done|].
    split; intros i j Hi Hj; cases.
  - intros ct w' Hct (X' & Y' & -> & HX' & HY' & Hcx & Hcy).
    eexists. split; [apply Hbody; (done || lia)|].
    eexists _, _. split; [done|].
    split; [by apply is_matrix_mset|]. split; [by apply is_matrix_mset|].
    split; intros i j Hi Hj; rewrite (cell_mset n n) by (done || lia).
    + rewrite Hcx by done. cases.
    + rewrite Hcy by done. cases.
  - exists X', Y'. split; [done|]. split; [done|]. split; [done|].
    split; intros i j Hi Hj.
    + rewrite Hcx by done. cases.
    + rewrite Hcy by done. cases.
Qed.

(** Lines 53-56. *)
Lemma divide_row_sim p s w :
  p < n -> holds s w ->
  exists w',
    for_up 0 n (fun ct =>
      x <- load mx p ct;;
      store mx p ct (x / s.1 p p)%F;;
      y <- load idl p ct;;
      store idl p ct (y / s.1 p p)%F) w = Some (tt, w') /\
    holds (scale_op p s) w'.
Proof.
  intros Hp (X & Y & -> & HX & HY & Hcx & Hcy).
  destruct (row_loop p (fun ct =>
      x <- load mx p ct;;
      store mx p ct (x / s.1 p p)%F;;
      y <- load idl p ct;;
      store idl p ct (y / s.1 p p)%F)
    (fun j => (s.1 p j / s.1 p p)%F) (fun j => (s.2 p j / s.1 p p)%F) X Y)
    as (X' & Y' & Hrun & HX' & HY' & Hcx' & Hcy'); [done..| |].
  - intros ct X' Y' Hct HX' HY' Hcx' Hcy'.
    erewrite bind_some; [|by apply load_mx].
    erewrite bind_some; [|by apply store_mx].
    erewrite bind_some; [|by apply load_idl].
    rewrite store_idl by (done || by apply is_matrix_mset).
    rewrite Hcx', Hcy' by done. rewrite !decide_False by lia.
    by rewrite Hcx, Hcy by done.
  - exists (both X' Y'). split; [done|]. exists X', Y'.
    split; [done|]. split; [done|]. split; [done|].
    destruct s as [a b]; simpl in *.
    split; intros i j Hi Hj.
    + rewrite Hcx' by done. case_decide; [by subst|by apply Hcx].
    + rewrite Hcy' by done. case_decide; [by subst|by apply Hcy].
Qed.

(** Lines 59-62 and 69-72. *)
Lemma subtract_row_sim p i s w :
  p < n -> i < n -> i <> p -> holds s w ->
  exists w',
    subtract_row mx idl (s.1 i p) i p n w = Some (tt, w') /\
    holds (elim_op p i s) w'.
Proof.
  intros Hp Hi Hip (X & Y & -> & HX & HY & Hcx & Hcy).
  unfold subtract_row.
  destruct (row_loop i (fun ct =>
      x <- load mx i ct;;
      xp <- load mx p ct;;
      store mx i ct (x - s.1 i p * xp)%F;;
      y <- load idl i ct;;
      yp <- load idl p ct;;
      store idl i ct (y - s.1 i p * yp)%F)
    (fun j => (s.1 i j - s.1 i p * s.1 p j)%F)
    (fun j => (s.2 i j - s.1 i p * s.2 p j)%F) X Y)
    as (X' & Y' & Hrun & HX' & HY' & Hcx' & Hcy'); [done..| |].
  - intros ct X' Y' Hct HX' HY' Hcx' Hcy'.
    erewrite bind_some; [|by apply load_mx].
    erewrite bind_some; [|by apply load_mx].
    erewrite bind_some; [|by apply store_mx].
    erewrite bind_some; [|by apply load_idl].
    erewrite bind_some; [|by apply load_idl].
    rewrite store_idl by (done || by apply is_matrix_mset).
    rewrite !Hcx', !Hcy' by done. rewrite !decide_False by lia.
    by rewrite !Hcx, !Hcy by done.
  - exists (both X' Y'). split; [done|]. exists X', Y'.
    split; [done|]. split; [done|]. split; [done|].
    destruct s as [a b]; simpl in *.
    split; intros r j Hr Hj.
    + rewrite Hcx' by done. case_decide; [by subst|by apply Hcx].
    + rewrite Hcy' by done. case_decide; [by subst|by apply Hcy].
Qed.

Lemma load_pivot i p s w :
  i < n -> p < n -> holds s w -> load mx i p w = Some (s.1 i p, w).
Proof.
  intros Hi Hp (X & Y & -> & HX & HY & Hcx & Hcy).
  rewrite load_mx by done. by rewrite Hcx.
Qed.

(** Line 52 of turn [p] reads the [p]-th pivot. *)
Lemma load_pivot_of_turn (a0 : cells) p w :
  p < n -> holds (iter_up 0 p (forward_step n) (a0, delta)) w ->
  load mx p p w = Some (pivot n a0 p, w).
Proof. intros Hp Hs. by apply (load_pivot p p _ w). Qed.

(** Lines 51-64. *)
Lemma forward_sim s w :
  holds s w ->
  exists w',
    for_up 0 n (fun p =>
      f <- load mx p p;;
      for_up 0 n (fun ct =>
        x <- load mx p ct;;
        store mx p ct (x / f)%F;;
        y <- load idl p ct;;
        store idl p ct (y / f)%F);;
      for_up (p + 1) n (fun i =>
        f <- load mx i p;;
        subtract_row mx idl f i p n)) w = Some (tt, w') /\
    holds (iter_up 0 n (forward_step n) s) w'.
Proof.
  apply for_up_sim. clear s w. intros p s w Hp Hs.
  erewrite bind_some; [|by apply load_pivot; [lia..|done]].
  destruct (divide_row_sim p s w) as (w1' & Hrun1 & Hs1); [lia|done|].
  erewrite bind_some; [|exact Hrun1].
  unfold forward_step. apply for_up_sim; [|done].
  intros i t w' Hi Ht.
  erewrite bind_some; [|by apply load_pivot; [lia..|done]].
  apply subtract_row_sim; [lia..|done].
Qed.

(** Lines 66-74. *)
Lemma backward_sim s w :
  holds s w ->
  exists w',
    for_down n (fun p =>
      for_down p (fun i =>
        f <- load mx i p;;
        subtract_row mx idl f i p n)) w = Some (tt, w') /\
    holds (iter_down n backward_step s) w'.
Proof.
  apply for_down_sim. clear s w. intros p s w Hp Hs.
  unfold backward_step. apply for_down_sim; [|done].
  intros i t w' Hi Ht.
  erewrite bind_some; [|by apply load_pivot; [lia..|done]].
  apply subtract_row_sim; [lia..|done].
Qed.

End Inverse.

Lemma is_matrix_replicate rows cols (x : F) :
  is_matrix rows cols (replicate rows (replicate cols x)).
Proof.
  split; [by rewrite length_replicate|].
  apply Forall_replicate. by rewrite length_replicate.
Qed.

Lemma malloc_matrix_spec rows cols (w : world F) :
  malloc_matrix rows cols w
  = Some (length (mem w),
          set_mem (mem w ++ [replicate rows (replicate cols indet)]) w).
Proof. done. Qed.

(** The heap after [inverse]: the argument block holds [X], the new block
    [Y] is last. *)
Lemma both_after_malloc mx (J X Y : mat) (w : world F) :
  mx < length (mem w) ->
  both mx (length (mem w)) (set_mem (mem w ++ [J]) w) X Y
  = set_mem (<[mx := X]> (mem w) ++ [Y]) w.
Proof.
  intros Hmx. unfold both, upd, set_mem. simpl. f_equal.
  rewrite insert_app_l by done.
  rewrite insert_app_r_alt by (by rewrite length_insert).
  by rewrite length_insert, Nat.sub_diag.
Qed.

(** [inverse] is safe on every square block and leaves in the two blocks
    what the row operations of [gauss_jordan] compute. *)
Lemma inverse_refines n mx (A : mat) (w : world F) :
  mem w !! mx = Some A -> is_matrix n n A ->
  exists X Y,
    inverse mx n n w
    = Some (length (mem w),
            set_mem (<[mx := X]> (mem w) ++ [Y])
              (entered (call_inverse mx n n) w)) /\
    is_matrix n n X /\ is_matrix n n Y /\
    (forall i j, i < n -> j < n ->
       cell X i j = (gauss_jordan n (cell A, delta)).1 i j) /\
    (forall i j, i < n -> j < n ->
       cell Y i j = (gauss_jordan n (cell A, delta)).2 i j).
Proof.
  intros Hm HA. unfold inverse.
  set (J := replicate n (replicate n indet)).
  set (idl := length (mem w)).
  set (w1 := set_mem (mem w ++ [J]) (entered (call_inverse mx n n) w)).
  assert (Hmx : mx < length (mem w)) by (by eapply lookup_lt_Some).
  assert (Hne : mx <> idl) by (unfold idl; lia).
  assert (Hmx1 : mx < length (mem w1))
    by (simpl; rewrite length_app; lia).
  assert (Hidl1 : idl < length (mem w1))
    by (simpl; rewrite length_app; simpl; unfold idl; lia).
  assert (HJ : mem w1 !! idl = Some J)
    by (simpl; apply list_lookup_middle; done).
  assert (HA1 : mem w1 !! mx = Some A)
    by (simpl; by apply lookup_app_l_Some).
  erewrite bind_some; [|reflexivity].
  erewrite bind_some; [|apply malloc_matrix_spec].
  change (set_mem (mem (entered (call_inverse mx n n) w) ++
                     [replicate n (replicate n indet)])
            (entered (call_inverse mx n n) w)) with w1.
  change (length (mem (entered (call_inverse mx n n) w))) with idl.
  erewrite bind_some; cycle 1.
  { apply (for2_cells idl n n _ delta J); [done|apply is_matrix_replicate|].
    intros i j Y Hi Hj HY _. unfold delta.
    case_decide; by apply (store_upd_eq n n). }
  fold (mat_id n).
  assert (Hs0 : holds n mx idl w1 (cell A, delta) (upd idl (mat_id n) w1)).
  { exists A, (mat_id n). unfold both. rewrite (upd_id mx A) by done.
    split; [done|]. split; [done|]. split; [apply is_matrix_tabulate|].
    split; intros i j Hi Hj; [done|]. by apply cell_tabulate. }
  destruct (forward_sim n mx idl w1 Hne Hmx1 Hidl1 _ _ Hs0)
    as (w2 & Hrun2 & Hs2).
  erewrite bind_some; [|exact Hrun2].
  destruct (backward_sim n mx idl w1 Hne Hmx1 Hidl1 _ _ Hs2)
    as (w3 & Hrun3 & X & Y & -> & HX & HY & Hcx & Hcy).
  erewrite bind_some; [|exact Hrun3].
  exists X, Y. split; [|done]. unfold ret. do 2 f_equal.
  by apply (both_after_malloc mx J X Y (entered (call_inverse mx n n) w)).
Qed.

Lemma inverse_run n mx (A : mat) (w : world F) :
  mem w !! mx = Some A -> is_matrix n n A ->
  inverse mx n n w
  = Some (length (mem w),
          set_mem (<[mx := eliminated n A]> (mem w) ++ [inverted n A])
            (entered (call_inverse mx n n) w)).
Proof.
  intros Hm HA.
  destruct (inverse_refines n mx A w Hm HA)
    as (X & Y & Hrun & HX & HY & Hcx & Hcy).
  rewrite Hrun.
  replace X with (eliminated n A); [replace Y with (inverted n A); [done|]|].
  - apply (mat_ext n n); [apply is_matrix_tabulate|done|].
    intros i j Hi Hj. unfold inverted. rewrite cell_tabulate by done.
    symmetry. by apply Hcy.
  - apply (mat_ext n n); [apply is_matrix_tabulate|done|].
    intros i j Hi Hj. unfold eliminated. rewrite cell_tabulate by done.
    symmetry. by apply Hcx.
Qed.

(** *** Reading the rows of a file *)

Lemma set_stream_upd fp s m (X : mat) (w : world F) :
  set_stream fp s (upd m X w) = upd m X (set_stream fp s w).
Proof. by destruct fp. Qed.

Lemma set_stream_twice fp s s' (w : world F) :
  set_stream fp s (set_stream fp s' w) = set_stream fp s w.
Proof. by destruct fp. Qed.

Lemma set_stream_id fp (w : world F) : set_stream fp (stream fp w) w = w.
Proof. by destruct fp, w. Qed.

Lemma stream_set_stream fp s (w : world F) : stream fp (set_stream fp s w) = s.
Proof. by destruct fp. Qed.

Lemma stream_upd fp m (X : mat) (w : world F) :
  stream fp (upd m X w) = stream fp w.
Proof. by destruct fp. Qed.

Lemma mem_set_stream fp s (w : world F) : mem (set_stream fp s w) = mem w.
Proof. by destruct fp. Qed.

Lemma drop_head (nums : list F) k x rest :
  drop k nums = x :: rest -> nth k nums 0%F = x /\ drop (S k) nums = rest.
Proof.
  intros Hd.
  assert (Hx : nums !! k = Some x).
  { rewrite <- (Nat.add_0_r k), <- lookup_drop. by rewrite Hd. }
  split; [by apply nth_lookup_Some|].
  rewrite (drop_S _ _ _ Hx) in Hd. by injection Hd.
Qed.

(** [fscanf] of the [k]-th number into a cell that still holds its 0. *)
Lemma fscanf_lf_spec rows cols fp m (X : mat) i j k nums (w : world F) :
  m < length (mem w) -> is_matrix rows cols X -> i < rows -> j < cols ->
  cell X i j = 0%F ->
  fscanf_lf fp m i j (upd m X (set_stream fp (drop k nums) w))
  = Some (tt, upd m (mset X i j (nth k nums 0%F))
                (set_stream fp (drop (S k) nums) w)).
Proof.
  intros Hm HX Hi Hj Hz. unfold fscanf_lf.
  rewrite stream_upd, stream_set_stream.
  destruct (drop k nums) as [|x rest] eqn:Hd.
  - apply drop_nil_inv in Hd.
    rewrite nth_overflow by done. rewrite drop_ge by lia.
    rewrite <- Hz. by rewrite (mset_id rows cols).
  - destruct (drop_head _ _ _ _ Hd) as [-> ->].
    rewrite set_stream_upd, set_stream_twice.
    apply (store_upd_eq rows cols); [|done..].
    by rewrite mem_set_stream.
Qed.

(** The loop that reads the attributes of row [i]: columns 1 and up get
    the numbers from position [base] on. *)
Lemma read_row rows cols fp m (X : mat) i base nums (w : world F) :
  m < length (mem w) -> is_matrix rows cols X -> i < rows -> 1 <= cols ->
  (forall j, 1 <= j -> j < cols -> cell X i j = 0%F) ->
  exists X',
    for_up 1 cols (fun j => fscanf_lf fp m i j)
      (upd m X (set_stream fp (drop base nums) w))
    = Some (tt, upd m X' (set_stream fp (drop (base + (cols - 1)) nums) w)) /\
    is_matrix rows cols X' /\
    forall i' j', i' < rows -> j' < cols ->
      cell X' i' j' = if decide (i' = i /\ 1 <= j')
                      then nth (base + (j' - 1)) nums 0%F else cell X i' j'.
Proof.
  intros Hm HX Hi Hc Hz.
  destruct (for_up_inv (fun j w' =>
    exists X', w' = upd m X' (set_stream fp (drop (base + (j - 1)) nums) w) /\
      is_matrix rows cols X' /\
      forall i' j', i' < rows -> j' < cols ->
        cell X' i' j' = if decide (i' = i /\ 1 <= j' /\ j' < j)
                        then nth (base + (j' - 1)) nums 0%F else cell X i' j')
    1 cols (fun j => fscanf_lf fp m i j)
    (upd m X (set_stream fp (drop base nums) w)))
    as (w' & Hrun & X' & -> & HX' & Hcx); [lia| | |].
  - exists X. rewrite Nat.add_0_r. split; [done|]. split; [done|].
    intros i' j' Hi' Hj'. cases.
  - intros j w' Hj (X' & -> & HX' & Hcx).
    eexists. split.
    + apply (fscanf_lf_spec rows cols); [done|done|lia|lia|].
      rewrite Hcx by lia. rewrite decide_False by lia. apply Hz; lia.
    + eexists. split; [by replace (base + (S j - 1)) with (S (base + (j - 1))) by lia|].
      split; [by apply is_matrix_mset|].
      intros i' j' Hi' Hj'. rewrite (cell_mset rows cols) by (done || lia).
      rewrite Hcx by done. cases.
  - exists X'. split; [done|]. split; [done|].
    intros i' j' Hi' Hj'. rewrite Hcx by done. cases.
Qed.

(** Lines 158-164: the rows of the training file. *)
Lemma read_training mxl vy (f : file F) (w : world F) :
  mxl <> vy ->
  mem w !! mxl = Some (mat_zero (houses f) (attributes f + 1)) ->
  mem w !! vy = Some (mat_zero (houses f) 1) ->
  stream file1 w = numbers f ->
  for_up 0 (houses f) (fun i =>
    store mxl i 0 1%F;;
    for_up 1 (attributes f + 1) (fun j => fscanf_lf file1 mxl i j);;
    fscanf_lf file1 vy i 0) w
  = Some (tt, upd vy (targets f) (upd mxl (design f)
      (set_stream file1
         (drop (houses f * (attributes f + 1)) (numbers f)) w))).
Proof.
  intros Hne Hmx Hvy Hin.
  set (a := attributes f). set (h := houses f). set (nums := numbers f).
  assert (Hlx : mxl < length (mem w)) by (by eapply lookup_lt_Some).
  assert (Hly : vy < length (mem w)) by (by eapply lookup_lt_Some).
  pose (form := fun (X Y : mat) (k : nat) =>
    upd vy Y (upd mxl X (set_stream file1 (drop k nums) w))).
  assert (HformA : forall X Y k,
    form X Y k = upd mxl X (set_stream file1 (drop k nums) (upd vy Y w))).
  { intros. unfold form. by rewrite set_stream_upd, upd_comm. }
  assert (HformB : forall X Y k,
    form X Y k = upd vy Y (set_stream file1 (drop k nums) (upd mxl X w))).
  { intros. unfold form. by rewrite set_stream_upd. }
  destruct (for_up_inv (fun i w' =>
    exists X Y, w' = form X Y (i * (a + 1)) /\
      is_matrix h (a + 1) X /\ is_matrix h 1 Y /\
      (forall i' j', i' < h -> j' < a + 1 ->
         cell X i' j' = if decide (i' < i)
                        then cell (design f) i' j' else 0%F) /\
      (forall i' j', i' < h -> j' < 1 ->
         cell Y i' j' = if decide (i' < i)
                        then cell (targets f) i' j' else 0%F))
    0 h (fun i =>
      store mxl i 0 1%F;;
      for_up 1 (a + 1) (fun j => fscanf_lf file1 mxl i j);;
      fscanf_lf file1 vy i 0) w)
    as (w' & Hrun & X & Y & -> & HX & HY & Hcx & Hcy); [lia| | |].
  - exists (mat_zero h (a + 1)), (mat_zero h 1). split.
    { unfold form. change (drop (0 * (a + 1)) nums) with (numbers f).
      rewrite <- Hin, set_stream_id.
      by rewrite (upd_id mxl), (upd_id vy). }
    split; [apply is_matrix_tabulate|]. split; [apply is_matrix_tabulate|].
    split; intros i' j' Hi' Hj'; (rewrite decide_False by lia);
      by apply cell_tabulate.
  - intros i w' Hi (X & Y & -> & HX & HY & Hcx & Hcy).
    rewrite HformA.
    erewrite bind_some; cycle 1.
    { apply (store_upd_eq h (a + 1)); [|done|lia|lia].
      by rewrite mem_set_stream, length_mem_upd. }
    destruct (read_row h (a + 1) file1 mxl (mset X i 0 1%F) i
                (i * (a + 1)) nums (upd vy Y w))
      as (X2 & Hrun2 & HX2 & Hcx2);
      [by rewrite length_mem_upd|by apply is_matrix_mset|lia|lia| |].
    { intros j Hj1 Hj2. rewrite (cell_mset h (a + 1)) by (done || lia).
      rewrite decide_False by lia. rewrite Hcx by lia.
      by rewrite decide_False by lia. }
    erewrite bind_some; [|exact Hrun2].
    rewrite <- HformA, HformB.
    replace (i * (a + 1) + (a + 1 - 1)) with (i * (a + 1) + a) by lia.
    rewrite (fscanf_lf_spec h 1); [|by rewrite length_mem_upd|done|lia|lia|];
      cycle 1.
    { rewrite Hcy by lia. by rewrite decide_False by lia. }
    eexists. split; [done|]. rewrite <- HformB.
    replace (S (i * (a + 1) + a)) with (S i * (a + 1)) by lia.
    eexists _, _. split; [done|].
    split; [done|]. split; [by apply is_matrix_mset|].
    split; intros i' j' Hi' Hj'.
    + rewrite Hcx2 by done. rewrite (cell_mset h (a + 1)) by (done || lia).
      rewrite Hcx by done. unfold design. fold a h nums.
      rewrite cell_tabulate by done. cases.
    + rewrite (cell_mset h 1) by (done || lia). rewrite Hcy by done.
      unfold targets. fold a h nums. rewrite cell_tabulate by done.
      cases.
  - rewrite Hrun. do 2 f_equal. unfold form.
    assert (X = design f) as ->.
    { apply (mat_ext h (a + 1)); [done|apply is_matrix_tabulate|].
      intros i j Hi Hj. rewrite Hcx by done. by rewrite decide_True by done. }
    assert (Y = targets f) as ->.
    { apply (mat_ext h 1); [done|apply is_matrix_tabulate|].
      intros i j Hi Hj. rewrite Hcy by done. by rewrite decide_True by done. }
    done.
Qed.

(** Lines 245-250: the rows of the query file. *)
Lemma read_query ex (f : file F) (w : world F) :
  mem w !! ex = Some (mat_zero (houses f) (attributes f + 1)) ->
  stream file2 w = numbers f ->
  for_up 0 (houses f) (fun i =>
    store ex i 0 1%F;;
    for_up 1 (attributes f + 1) (fun j => fscanf_lf file2 ex i j)) w
  = Some (tt, upd ex (query f)
      (set_stream file2 (drop (houses f * attributes f) (numbers f)) w)).
Proof.
  intros Hex Hin.
  set (a := attributes f). set (h := houses f). set (nums := numbers f).
  assert (Hlx : ex < length (mem w)) by (by eapply lookup_lt_Some).
  destruct (for_up_inv (fun i w' =>
    exists X, w' = upd ex X (set_stream file2 (drop (i * a) nums) w) /\
      is_matrix h (a + 1) X /\
      (forall i' j', i' < h -> j' < a + 1 ->
         cell X i' j' = if decide (i' < i)
                        then cell (query f) i' j' else 0%F))
    0 h (fun i =>
      store ex i 0 1%F;;
      for_up 1 (a + 1) (fun j => fscanf_lf file2 ex i j)) w)
    as (w' & Hrun & X & -> & HX & Hcx); [lia| | |].
  - exists (mat_zero h (a + 1)). split.
    { change (drop (0 * a) nums) with (numbers f).
      rewrite <- Hin, set_stream_id. by rewrite (upd_id ex). }
    split; [apply is_matrix_tabulate|].
    intros i' j' Hi' Hj'. rewrite decide_False by lia.
    by apply cell_tabulate.
  - intros i w' Hi (X & -> & HX & Hcx).
    erewrite bind_some; cycle 1.
    { apply (store_upd_eq h (a + 1)); [|done|lia|lia].
      by rewrite mem_set_stream. }
    destruct (read_row h (a + 1) file2 ex (mset X i 0 1%F) i
                (i * a) nums w)
      as (X2 & Hrun2 & HX2 & Hcx2);
      [done|by apply is_matrix_mset|lia|lia| |].
    { intros j Hj1 Hj2. rewrite (cell_mset h (a + 1)) by (done || lia).
      rewrite decide_False by lia. rewrite Hcx by lia.
      by rewrite decide_False by lia. }
    eexists. split; [exact Hrun2|].
    replace (i * a + (a + 1 - 1)) with (S i * a) by lia.
    eexists. split; [done|]. split; [done|].
    intros i' j' Hi' Hj'.
    rewrite Hcx2 by done. rewrite (cell_mset h (a + 1)) by (done || lia).
    rewrite Hcx by done. unfold query. fold a h nums.
    rewrite cell_tabulate by done. cases.
  - rewrite Hrun. do 2 f_equal.
    assert (X = query f) as ->; [|done].
    apply (mat_ext h (a + 1)); [done|apply is_matrix_tabulate|].
    intros i j Hi Hj. rewrite Hcx by done. by rewrite decide_True by done.
Qed.

(** *** Printing *)

Lemma append_assoc (s1 s2 s3 : string) :
  ((s1 ++ s2) ++ s3 = s1 ++ (s2 ++ s3))%string.
Proof. induction s1 as [|c s1 IH]; simpl; [done|by rewrite IH]. Qed.

Lemma append_empty_r (s : string) : (s ++ "")%string = s.
Proof. induction s as [|c s IH]; simpl; [done|by rewrite IH]. Qed.

Lemma printPriceMatrix_spec m rows (Y : mat) (w : world F) :
  mem w !! m = Some Y -> is_matrix rows 1 Y ->
  printPriceMatrix m rows 1 w
  = Some (tt, printed (price_lines Y rows)
                (entered (call_printPriceMatrix m rows 1) w)).
Proof.
  intros Hm HY. unfold printPriceMatrix.
  erewrite bind_some; [|reflexivity].
  set (w0 := entered (call_printPriceMatrix m rows 1) w).
  destruct (for_up_inv (fun i w' => w' = printed (price_lines Y i) w0)
    0 rows (fun i =>
      for_up 0 1 (fun j => x <- load m i j;; printf (fmt_0f x));;
      printf (String "010" "")) w0) as (w' & Hrun & ->); [lia| | |done].
  - unfold printed. simpl. by rewrite append_empty_r.
  - intros i w' Hi ->. eexists. split; [|reflexivity].
    unfold for_up. simpl.
    erewrite bind_some; cycle 1.
    { erewrite bind_some; cycle 1.
      { erewrite bind_some; [|by apply (load_ok rows 1 m Y); [|done|lia|lia]].
        reflexivity. }
      reflexivity. }
    unfold printf, printed, ret. simpl.
    by rewrite !append_assoc.
Qed.

(** *** main *)

Local Arguments insertZeroes : simpl never.
Local Arguments transpose : simpl never.
Local Arguments multiply : simpl never.
Local Arguments inverse : simpl never.
Local Arguments printPriceMatrix : simpl never.
Local Arguments for_up : simpl never.
Local Arguments mat_zero : simpl never.
Local Arguments mat_prod : simpl never.
Local Arguments mat_transpose : simpl never.
Local Arguments mat_id : simpl never.
Local Arguments design : simpl never.
Local Arguments targets : simpl never.
Local Arguments query : simpl never.

Local Arguments replicate : simpl never.

Ltac step tac :=
  erewrite bind_some; [|tac]; simpl; unfold set_mem, upd; simpl.

Local Arguments coefficients : simpl never.
Local Arguments predictions : simpl never.
Local Arguments price_lines : simpl never.

(** Lines 227-230. *)
Lemma main_estimate_mismatch (train data : file F) (P Inv : mat) :
  attributes train <> attributes data ->
  main_estimate (train_vars train) data (trained train P Inv)
  = Some (0%Z, rejected train data P Inv).
Proof.
  intros Hne. unfold main_estimate.
  step ltac:(reflexivity).
  rewrite decide_True by done.
  reflexivity.
Qed.

(** Lines 234-259. *)
Lemma main_estimate_match (train data : file F) (P Inv : mat) :
  attributes train = attributes data ->
  is_matrix (attributes train + 1) (attributes train + 1) Inv ->
  main_estimate (train_vars train) data (trained train P Inv)
  = Some (0%Z, estimated train data P Inv).
Proof.
  intros Heq HInv. unfold main_estimate.
  set (a := attributes data). set (h := houses data).
  step ltac:(reflexivity).
  rewrite decide_False by (intros Hne; by apply Hne).
  step ltac:(reflexivity).
  step ltac:(reflexivity).
  step ltac:(eapply (insertZeroes_spec 8 h (a + 1));
             [reflexivity|apply is_matrix_replicate]).
  step ltac:(eapply (insertZeroes_spec 9 h 1);
             [reflexivity|apply is_matrix_replicate]).
  step ltac:(eapply (read_query 8 data); reflexivity).
  step ltac:(eapply (multiply_zero 8 2 9 h 1 (a + 1));
             [lia|lia|reflexivity|reflexivity|reflexivity
             |apply is_matrix_tabulate
             |unfold a; rewrite <- Heq; apply is_matrix_tabulate]).
  step ltac:(eapply (printPriceMatrix_spec 9 h);
             [reflexivity|apply is_matrix_tabulate]).
  reflexivity.
Qed.

(** *** The run of main in closed form *)

Local Arguments eliminated : simpl never.
Local Arguments inverted : simpl never.

Lemma main_train_run (f : file F) :
  main_train f start = Some (train_vars f, after_training f).
Proof.
  unfold main_train, after_training.
  set (a := attributes f). set (h := houses f).
  step ltac:(reflexivity).
  step ltac:(reflexivity).
  step ltac:(reflexivity).
  step ltac:(reflexivity).
  step ltac:(eapply (insertZeroes_spec 0 h (a + 1));
             [reflexivity|apply is_matrix_replicate]).
  step ltac:(eapply (insertZeroes_spec 1 h 1);
             [reflexivity|apply is_matrix_replicate]).
  step ltac:(eapply (insertZeroes_spec 2 (a + 1) 1);
             [reflexivity|apply is_matrix_replicate]).
  step ltac:(eapply (read_training 0 1 f); [lia|reflexivity..]).
  step ltac:(reflexivity).
  step ltac:(eapply (insertZeroes_spec 3 (a + 1) h);
             [reflexivity|apply is_matrix_replicate]).
  step ltac:(eapply (transpose_spec 0 3 h (a + 1));
             [lia|reflexivity|reflexivity|apply is_matrix_tabulate..]).
  step ltac:(reflexivity).
  step ltac:(eapply (insertZeroes_spec 4 (a + 1) (a + 1));
             [reflexivity|apply is_matrix_replicate]).
  step ltac:(eapply (multiply_zero 3 0 4 (a + 1) (a + 1) h);
             [lia|lia|reflexivity|reflexivity|reflexivity
             |apply is_matrix_tabulate..]).
  step ltac:(reflexivity).
  step ltac:(eapply (insertZeroes_spec 5 (a + 1) (a + 1));
             [reflexivity|apply is_matrix_replicate]).
  step ltac:(eapply (inverse_run (a + 1) 4 (gram f));
             [reflexivity|apply is_matrix_tabulate]).
  step ltac:(reflexivity).
  step ltac:(eapply (insertZeroes_spec 7 (a + 1) h);
             [reflexivity|apply is_matrix_replicate]).
  step ltac:(eapply (multiply_zero 6 3 7 (a + 1) h (a + 1));
             [lia|lia|reflexivity|reflexivity|reflexivity
             |apply is_matrix_tabulate..]).
  step ltac:(eapply (multiply_zero 7 1 2 (a + 1) 1 h);
             [lia|lia|reflexivity|reflexivity|reflexivity
             |apply is_matrix_tabulate..]).
  reflexivity.
Qed.

Lemma main_run (train data : file F) :
  main train data start = Some (0%Z, after_main train data).
Proof.
  unfold main. erewrite bind_some; [|apply main_train_run].
  unfold after_main, after_training. case_decide.
  - apply main_estimate_match; [done|apply is_matrix_tabulate].
  - by apply main_estimate_mismatch.
Qed.

(** *** What a computation writes *)

Lemma writes_only_ret {A} d (a : A) : writes_only (F := F) (A := A) d (ret a).
Proof. intros w x w' Hc l Hl. unfold ret in Hc. by simplify_eq. Qed.

Lemma writes_only_bind {A B} d (c : M F A) (k : A -> M F B) :
  writes_only d c -> (forall a, writes_only d (k a)) ->
  writes_only d (bind c k).
Proof.
  intros Hc Hk w x w' Hrun l Hl. unfold bind in Hrun.
  destruct (c w) as [[a w1]|] eqn:Hcw; [|done].
  rewrite (Hk a w1 x w' Hrun l Hl). by apply (Hc w a w1).
Qed.

Lemma writes_only_load d m i j : writes_only (A := F) d (load m i j).
Proof.
  intros w x w' Hrun l Hl. unfold load in Hrun.
  repeat case_match; by simplify_eq.
Qed.

Lemma writes_only_store d i j (v : F) :
  writes_only (A := unit) d (store d i j v).
Proof.
  intros w x w' Hrun l Hl. unfold store in Hrun.
  repeat case_match; simplify_eq. by apply mem_upd_ne.
Qed.

Lemma writes_only_for_count d (body : nat -> M F unit) n :
  (forall i, writes_only (A := unit) d (body i)) ->
  forall i, writes_only (A := unit) d (for_count n i body).
Proof.
  intros Hbody. induction n as [|n IH]; intros i; simpl.
  - apply writes_only_ret.
  - apply writes_only_bind; [apply Hbody|]. intros _. apply IH.
Qed.

Lemma writes_only_enter d c : writes_only (F := F) (A := unit) d (enter c).
Proof. intros w x w' Hc l Hl. unfold enter in Hc. by simplify_eq. Qed.

Lemma writes_only_multiply a b d rows cols inner :
  writes_only (A := loc) d (multiply a b d rows cols inner).
Proof.
  unfold multiply. apply writes_only_bind; [apply writes_only_enter|intros _].
  apply writes_only_bind; [|intros; apply writes_only_ret].
  do 3 (apply writes_only_for_count; intros ?).
  repeat (apply writes_only_bind; [apply writes_only_load|intros ?]).
  apply writes_only_store.
Qed.

Lemma mat_transpose_twice rows cols (A : mat) :
  is_matrix rows cols A ->
  mat_transpose (mat_transpose A rows cols) cols rows = A.
Proof.
  intros HA. apply (mat_ext rows cols); [apply is_matrix_tabulate|done|].
  intros i j Hi Hj. unfold mat_transpose.
  by rewrite !cell_tabulate by done.
Qed.

Lemma cell_mat_prod (A B : mat) rows cols inner i j :
  i < rows -> j < cols ->
  cell (mat_prod A B rows cols inner) i j
  = sum_upto inner (fun k => cell A i k * cell B k j)%F.
Proof. intros Hi Hj. unfold mat_prod. by rewrite cell_tabulate. Qed.

Lemma cell_mat_transpose (A : mat) rows cols i j :
  i < cols -> j < rows -> cell (mat_transpose A rows cols) i j = cell A j i.
Proof. intros Hi Hj. unfold mat_transpose. by rewrite cell_tabulate. Qed.

Lemma cell_mat_id n i j : i < n -> j < n -> cell (mat_id n) i j = delta i j.
Proof. intros Hi Hj. unfold mat_id. by rewrite cell_tabulate. Qed.

Lemma bind_none {A B} (c : M F A) (k : A -> M F B) w :
  c w = None -> bind c k w = None.
Proof. intros Hc. unfold bind. by rewrite Hc. Qed.

Lemma for_count_app (body : nat -> M F unit) n m :
  forall i w,
  for_count (n + m) i body w
  = bind (for_count n i body) (fun _ => for_count m (i + n) body) w.
Proof.
  induction n as [|n IH]; intros i w; simpl.
  - unfold bind, ret. by rewrite Nat.add_0_r.
  - replace (i + Datatypes.S n) with (Datatypes.S i + n) by lia.
    unfold bind. destruct (body i w) as [[[] w1]|]; [|done].
    rewrite IH. reflexivity.
Qed.

Lemma design_targets_ext (f f' : file F) :
  attributes f' = attributes f -> houses f' = houses f ->
  (forall i, i < houses f * (attributes f + 1) ->
     nth i (numbers f') 0%F = nth i (numbers f) 0%F) ->
  design f' = design f /\ targets f' = targets f.
Proof.
  intros Ha Hh Hn. unfold design, targets. rewrite Ha, Hh. split.
  - apply tabulate_ext. intros i j Hi Hj. case_decide; [done|].
    apply Hn. nia.
  - apply tabulate_ext. intros i j Hi Hj. apply Hn. nia.
Qed.

Lemma query_ext (f f' : file F) :
  attributes f' = attributes f -> houses f' = houses f ->
  (forall i, i < houses f * attributes f ->
     nth i (numbers f') 0%F = nth i (numbers f) 0%F) ->
  query f' = query f.
Proof.
  intros Ha Hh Hn. unfold query. rewrite Ha, Hh.
  apply tabulate_ext. intros i j Hi Hj. case_decide; [done|].
  apply Hn. nia.
Qed.

Lemma after_main_ext (train train' data data' : file F) :
  attributes train' = attributes train -> houses train' = houses train ->
  attributes data' = attributes data -> houses data' = houses data ->
  design train' = design train -> targets train' = targets train ->
  query data' = query data ->
  mem (after_main train' data') = mem (after_main train data) /\
  out (after_main train' data') = out (after_main train data).
Proof.
  intros Ha Hh Ha' Hh' Hd Ht Hq.
  unfold after_main, estimated, rejected, trained, predictions, coefficients,
    gram.
  rewrite Ha, Hh, Ha', Hh', Hd, Ht, Hq. by case_decide.
Qed.

Lemma nth_app_zeros (l : list F) k i :
  nth i (l ++ replicate k 0%F) 0%F = nth i l 0%F.
Proof.
  rewrite !nth_lookup. destruct (decide (i < length l)) as [Hi|Hi].
  - by rewrite lookup_app_l.
  - rewrite lookup_app_r by lia. rewrite (lookup_ge_None_2 l i) by lia.
    destruct (replicate k 0%F !! (i - length l)) as [x|] eqn:Hx; [|done].
    apply lookup_replicate in Hx. simpl. by destruct Hx.
Qed.


(** ** The claims

    The statements of this part hold whatever the arithmetic: no law of
    the operations on the scalars is used. *)

(** C10. A call of [multiply] whose destination is neither operand leaves
    both operands, and every block other than the destination, as they
    were. *)
Theorem multiply_preserves_operands a b d rows cols inner (w w' : world F) r :
  d <> a -> d <> b ->
  multiply a b d rows cols inner w = Some (r, w') ->
  mem w' !! a = mem w !! a /\
  mem w' !! b = mem w !! b /\
  (forall i j, cell (default [] (mem w' !! a)) i j
               = cell (default [] (mem w !! a)) i j) /\
  (forall i j, cell (default [] (mem w' !! b)) i j
               = cell (default [] (mem w !! b)) i j) /\
  (forall l, l <> d -> mem w' !! l = mem w !! l).
Proof.
  intros Hda Hdb Hrun.
  pose proof (writes_only_multiply a b d rows cols inner w r w' Hrun) as Hfr.
  rewrite !(Hfr a), !(Hfr b) by done. done.
Qed.

(** C6. [transpose] fills the destination with the transposed source and
    leaves the source as it was. *)
Theorem transpose_correct src dst rows cols (S T : mat) (w : world F) :
  src <> dst ->
  mem w !! src = Some S -> mem w !! dst = Some T ->
  is_matrix rows cols S -> is_matrix cols rows T ->
  exists T' w',
    transpose src dst rows cols w = Some (dst, w') /\
    mem w' !! dst = Some T' /\
    is_matrix cols rows T' /\
    (forall i j, i < cols -> j < rows -> cell T' i j = cell S j i) /\
    mem w' !! src = Some S.
Proof.
  intros Hne Hs Hd HS HT.
  eexists _, _. split; [by apply (transpose_spec src dst rows cols S T)|].
  split; [apply mem_upd_eq; by eapply lookup_lt_Some|].
  split; [apply is_matrix_tabulate|]. split.
  - intros i j Hi Hj. unfold mat_transpose. by rewrite cell_tabulate.
  - by rewrite mem_upd_ne.
Qed.

(** C7. Transposing [A] into a second block and that block into a third
    leaves in the third block a copy of [A]. *)
Theorem transpose_involution a b c rows cols (A B C : mat) (w : world F) :
  a <> b -> b <> c ->
  mem w !! a = Some A -> mem w !! b = Some B -> mem w !! c = Some C ->
  is_matrix rows cols A -> is_matrix cols rows B -> is_matrix rows cols C ->
  exists w1 w2,
    transpose a b rows cols w = Some (b, w1) /\
    transpose b c cols rows w1 = Some (c, w2) /\
    mem w2 !! c = Some A /\
    (forall i j, i < rows -> j < cols ->
       cell (default [] (mem w2 !! c)) i j = cell A i j).
Proof.
  intros Hab Hbc Ha Hb Hc HA HB HC.
  assert (Hlb : b < length (mem w)) by (by eapply lookup_lt_Some).
  assert (Hlc : c < length (mem w)) by (by eapply lookup_lt_Some).
  set (w1 := upd b (mat_transpose A rows cols)
               (entered (call_transpose a b rows cols) w)).
  set (w2 := upd c (mat_transpose (mat_transpose A rows cols) cols rows)
               (entered (call_transpose b c cols rows) w1)).
  exists w1, w2.
  split; [by apply (transpose_spec a b rows cols A B)|].
  split.
  { apply (transpose_spec b c cols rows (mat_transpose A rows cols) C);
      [done|by apply mem_upd_eq|unfold w1; by rewrite mem_upd_ne
      |apply is_matrix_tabulate|done]. }
  assert (Hres : mem w2 !! c = Some A).
  { unfold w2. rewrite mem_upd_eq.
    - by rewrite (mat_transpose_twice rows cols).
    - unfold w1. simpl. by rewrite length_insert. }
  split; [done|]. intros i j _ _. by rewrite Hres.
Qed.

(** C4, as the program has it.  When the two files declare different
    attribute counts, [main] prints the line "error" and returns 0; no
    number of the query file has been read and no call has been made
    since the training part, so that no prediction was computed; the
    training part itself has run in full, with its calls of [transpose],
    [multiply] and [inverse], and [vector_w] holds its result. *)
Theorem mismatch_prints_error (train data : file F) :
  attributes train <> attributes data ->
  exists t w1 w' Inv,
    main_train train start = Some (t, w1) /\
    main train data start = Some (0%Z, w') /\
    out w' = "error" ++ newline /\
    in2 w' = numbers data /\
    mem w' = mem w1 /\
    calls w' = train_calls train /\
    regression_attempted w' = true /\
    mem w' !! vector_w t = Some (coefficients train Inv).
Proof.
  intros Hne.
  exists (train_vars train), (after_training train), (after_main train data),
         (inverted (attributes train + 1) (gram train)).
  split; [apply main_train_run|]. split; [apply main_run|].
  unfold after_main. rewrite decide_False by done.
  by repeat split.
Qed.

(** ** Exact arithmetic

    What the elimination of [inverse] achieves when the operations on the
    scalars are those of a field. *)

Section ExactArithmetic.

Context `{!Exact F}.

Add Field F_field : scalar_field.

(** Over a field the same laws hold as on [double]. *)
#[global] Instance exact_commutative : Commutative F.
Proof. intros x y. ring. Qed.

#[global] Instance exact_zero_one : ZeroOne F.
Proof.
  split; try ring. - field. apply (F_1_neq_0 scalar_field).
  - field. apply (F_1_neq_0 scalar_field).
Qed.

(** *** Sums *)

Lemma div_mul_inv (x y : F) : (x / y)%F = (x * inv y)%F.
Proof. apply (Fdiv_def scalar_field). Qed.

Lemma sum_upto_zero n (g : nat -> F) :
  (forall k, k < n -> g k = 0%F) -> sum_upto n g = 0%F.
Proof.
  induction n as [|n IH]; intros Hg; simpl; [done|].
  rewrite IH by (intros; apply Hg; lia). rewrite Hg by lia. ring.
Qed.

Lemma sum_upto_add n (g h : nat -> F) :
  sum_upto n (fun k => g k + h k)%F = (sum_upto n g + sum_upto n h)%F.
Proof. induction n as [|n IH]; simpl; [ring|rewrite IH; ring]. Qed.

Lemma sum_upto_sub n (g h : nat -> F) :
  sum_upto n (fun k => g k - h k)%F = (sum_upto n g - sum_upto n h)%F.
Proof. induction n as [|n IH]; simpl; [ring|rewrite IH; ring]. Qed.

Lemma sum_upto_scale_l n c (g : nat -> F) :
  sum_upto n (fun k => c * g k)%F = (c * sum_upto n g)%F.
Proof. induction n as [|n IH]; simpl; [ring|rewrite IH; ring]. Qed.

Lemma sum_upto_scale_r n c (g : nat -> F) :
  sum_upto n (fun k => g k * c)%F = (sum_upto n g * c)%F.
Proof. induction n as [|n IH]; simpl; [ring|rewrite IH; ring]. Qed.

Lemma sum_upto_at n p (c : F) :
  p < n -> sum_upto n (fun k => if decide (k = p) then c else 0%F) = c.
Proof.
  induction n as [|n IH]; intros Hp; [lia|]. simpl.
  destruct (decide (n = p)) as [->|Hne].
  - rewrite sum_upto_zero; [ring|].
    intros k Hk. by rewrite decide_False by lia.
  - rewrite IH by lia. ring.
Qed.

Lemma sum_upto_delta_r n j (g : nat -> F) :
  j < n -> sum_upto n (fun k => g k * delta k j)%F = g j.
Proof.
  intros Hj.
  transitivity (sum_upto n (fun k => if decide (k = j) then g j else 0%F));
    [|by apply sum_upto_at].
  apply sum_upto_ext. intros k _. unfold delta.
  case_decide; subst; ring.
Qed.

Lemma sum_upto_delta_l n i (g : nat -> F) :
  i < n -> sum_upto n (fun k => delta i k * g k)%F = g i.
Proof.
  intros Hi.
  transitivity (sum_upto n (fun k => if decide (k = i) then g i else 0%F));
    [|by apply sum_upto_at].
  apply sum_upto_ext. intros k _. unfold delta.
  repeat case_decide; subst; first [ring | congruence].
Qed.

(** *** Elimination on cell values *)

Lemma linked_start n (a0 : cells) : linked n a0 (a0, delta).
Proof.
  split.
  - intros i j Hi Hj. simpl.
    by apply (sum_upto_delta_l n i (fun k => a0 k j)).
  - exists delta. split; intros i j Hi Hj; simpl.
    + by apply (sum_upto_delta_l n i (fun k => a0 k j)).
    + by apply (sum_upto_delta_l n i (fun k => delta k j)).
Qed.

Lemma scale_left_linked n a0 p s :
  left_linked n a0 s -> left_linked n a0 (scale_op p s).
Proof.
  unfold left_linked. destruct s as [a b]. simpl.
  intros HL i j Hi Hj.
  case_decide; [|by apply HL].
  rewrite <- (HL i j) by done.
  rewrite div_mul_inv, <- sum_upto_scale_r.
  apply sum_upto_ext. intros k _. rewrite div_mul_inv. ring.
Qed.

Lemma elim_left_linked n a0 p i0 s :
  p < n -> left_linked n a0 s -> left_linked n a0 (elim_op p i0 s).
Proof.
  unfold left_linked. destruct s as [a b]. simpl.
  intros Hp HL i j Hi Hj.
  case_decide; [|by apply HL]. subst i.
  rewrite <- (HL i0 j), <- (HL p j) by done.
  rewrite <- sum_upto_scale_l, <- sum_upto_sub.
  apply sum_upto_ext. intros k _. ring.
Qed.

Lemma scale_right_linked n a0 p s :
  s.1 p p <> 0%F -> right_linked n a0 s -> right_linked n a0 (scale_op p s).
Proof.
  unfold right_linked. destruct s as [a b]. simpl.
  intros Hf (g & Ha & Hb).
  exists (fun i k => if decide (k = p) then (g i k * a p p)%F else g i k).
  split; intros i j Hi Hj.
  - rewrite <- Ha by done. apply sum_upto_ext. intros k _.
    case_decide; [|done]. subst k. by field.
  - rewrite <- Hb by done. apply sum_upto_ext. intros k _.
    case_decide; [|done]. subst k. by field.
Qed.

Lemma sum_upto_moved n p i0 (c : F) (t u : nat -> F) :
  p < n -> i0 < n ->
  (forall k, k < n ->
     t k = (u k + ((if decide (k = p) then c else 0)
                   - (if decide (k = i0) then c else 0)))%F) ->
  sum_upto n t = sum_upto n u.
Proof.
  intros Hp Hi Ht. rewrite (sum_upto_ext n t _ Ht).
  rewrite sum_upto_add, sum_upto_sub, !sum_upto_at by done. ring.
Qed.

Lemma elim_right_linked n a0 p i0 s :
  p < n -> i0 < n -> i0 <> p ->
  right_linked n a0 s -> right_linked n a0 (elim_op p i0 s).
Proof.
  unfold right_linked. destruct s as [a b]. simpl.
  intros Hp Hi0 Hne (g & Ha & Hb).
  exists (fun i k => if decide (k = p)
                     then (g i p + a i0 p * g i i0)%F else g i k).
  split; intros i j Hi Hj.
  - rewrite <- Ha by done.
    apply (sum_upto_moved n p i0 (a i0 p * g i i0 * a p j)%F); [done..|].
    intros k _. repeat case_decide; subst; first [congruence | ring].
  - rewrite <- Hb by done.
    apply (sum_upto_moved n p i0 (a i0 p * g i i0 * b p j)%F); [done..|].
    intros k _. repeat case_decide; subst; first [congruence | ring].
Qed.

Lemma scale_linked n a0 p s :
  s.1 p p <> 0%F -> linked n a0 s -> linked n a0 (scale_op p s).
Proof.
  intros Hf [HL HR]. split;
    [by apply scale_left_linked | by apply scale_right_linked].
Qed.

Lemma elim_linked n a0 p i0 s :
  p < n -> i0 < n -> i0 <> p ->
  linked n a0 s -> linked n a0 (elim_op p i0 s).
Proof.
  intros Hp Hi0 Hne [HL HR]. split;
    [by apply elim_left_linked | by apply elim_right_linked].
Qed.

(** The forward phase: turn [p] clears column [p] below a unit pivot. *)
Lemma forward_step_inv n a0 p s :
  p < n -> s.1 p p <> 0%F ->
  linked n a0 s -> lower_cleared n p s.1 ->
  linked n a0 (forward_step n p s) /\
  lower_cleared n (S p) (forward_step n p s).1.
Proof.
  intros Hp Hf HL HT. unfold forward_step.
  pose (P := fun (i : nat) (t : cells * cells) =>
    linked n a0 t /\ lower_cleared n p t.1 /\ t.1 p p = 1%F /\
    forall r, p < r -> r < i -> t.1 r p = 0%F).
  assert (HP : P n (iter_up (p + 1) n (elim_op p) (scale_op p s))).
  { apply (iter_up_inv P); [lia| |].
    - split; [by apply scale_linked|]. destruct s as [a b]; simpl in *.
      split; [|split].
      + intros c Hc. destruct (HT c Hc) as [Hd Hz].
        split; [by rewrite decide_False by lia|].
        intros r Hr Hrn. case_decide; [|by apply Hz].
        subst r. rewrite Hz by done. by field.
      + rewrite decide_True by done. by field.
      + intros r Hr Hr'. lia.
    - intros i t Hi (HLt & HTt & Hpp & Hcol).
      split; [apply elim_linked; [lia..|done]|].
      destruct t as [a b]; simpl in *. split; [|split].
      + intros c Hc. destruct (HTt c Hc) as [Hd Hz].
        split; [by rewrite decide_False by lia|].
        intros r Hr Hrn. case_decide; [|by apply Hz].
        subst r. rewrite !Hz by lia. ring.
      + by rewrite decide_False by lia.
      + intros r Hr Hr'. case_decide; [|apply Hcol; lia].
        subst r. rewrite Hpp. ring. }
  destruct HP as (HLn & HTn & Hpp & Hcol). split; [done|].
  intros c Hc. destruct (decide (c = p)) as [->|Hne].
  - split; [done|]. intros r Hr Hrn. by apply Hcol.
  - apply HTn. lia.
Qed.

Lemma forward_inv n a0 p :
  p <= n ->
  (forall q, q < p -> pivot n a0 q <> 0%F) ->
  linked n a0 (iter_up 0 p (forward_step n) (a0, delta)) /\
  lower_cleared n p (iter_up 0 p (forward_step n) (a0, delta)).1.
Proof.
  induction p as [|p IH]; intros Hp Hpiv.
  - split; [apply linked_start|]. intros c Hc. lia.
  - rewrite iter_up_S. destruct IH as [HL HT]; [lia|intros; apply Hpiv; lia|].
    apply forward_step_inv; [lia|apply Hpiv; lia|done..].
Qed.

(** The backward phase: turn [p] clears column [p] above the pivot. *)
Lemma backward_step_inv n a0 p s :
  p < n -> linked n a0 s ->
  lower_cleared n n s.1 -> upper_cleared n (S p) s.1 ->
  linked n a0 (backward_step p s) /\
  lower_cleared n n (backward_step p s).1 /\
  upper_cleared n p (backward_step p s).1.
Proof.
  intros Hp HL HT HU. unfold backward_step.
  pose (P := fun (i : nat) (t : cells * cells) =>
    linked n a0 t /\ lower_cleared n n t.1 /\ upper_cleared n (S p) t.1 /\
    forall r, i <= r -> r < p -> t.1 r p = 0%F).
  assert (HP : P 0 (iter_down p (elim_op p) s)).
  { apply (iter_down_inv P).
    - split; [done|]. split; [done|]. split; [done|]. intros r Hr Hr'. lia.
    - intros i t Hi (HLt & HTt & HUt & Hcol).
      split; [apply elim_linked; [lia..|done]|].
      destruct t as [a b]; simpl in *.
      assert (Hrow : forall c, c < p -> a p c = 0%F).
      { intros c Hc. by apply (HTt c); lia. }
      split; [|split].
      + intros c Hc. destruct (HTt c Hc) as [Hd Hz]. split.
        * case_decide; [|done]. subst c. rewrite Hd, Hrow by lia. ring.
        * intros r Hr Hrn. case_decide; [|by apply Hz].
          subst r. rewrite Hz, Hrow by lia. ring.
      + intros c r Hc Hcn Hr. case_decide; [|by apply HUt].
        subst r. rewrite !(HUt c) by lia. ring.
      + intros r Hr Hr'. case_decide; [|apply Hcol; lia].
        subst r. destruct (HTt p) as [-> _]; [lia|]. ring. }
  destruct HP as (HLn & HTn & HUn & Hcol). split; [done|]. split; [done|].
  intros c r Hc Hcn Hr. destruct (decide (c = p)) as [->|Hne].
  - apply Hcol; lia.
  - apply HUn; lia.
Qed.

(** Elimination with non-zero pivots ends with the identity in the first
    block and a two-sided inverse of the original in the second. *)
Lemma gauss_jordan_correct n a0 :
  (forall p, p < n -> pivot n a0 p <> 0%F) ->
  (forall i j, i < n -> j < n ->
     (gauss_jordan n (a0, delta)).1 i j = delta i j) /\
  (forall i j, i < n -> j < n ->
     sum_upto n (fun k => (gauss_jordan n (a0, delta)).2 i k * a0 k j)%F
     = delta i j) /\
  (forall i j, i < n -> j < n ->
     sum_upto n (fun k => a0 i k * (gauss_jordan n (a0, delta)).2 k j)%F
     = delta i j).
Proof.
  intros Hpiv. unfold gauss_jordan.
  destruct (forward_inv n a0 n) as [HL HT]; [lia|done|].
  set (s1 := iter_up 0 n (forward_step n) (a0, delta)) in *.
  pose (P := fun (p : nat) (t : cells * cells) =>
    linked n a0 t /\ lower_cleared n n t.1 /\ upper_cleared n p t.1).
  assert (HP : P 0 (iter_down n backward_step s1)).
  { apply (iter_down_inv P).
    - split; [done|]. split; [done|]. intros c r Hc Hcn. lia.
    - intros p t Hp (HLt & HTt & HUt). by apply backward_step_inv. }
  destruct HP as ([HLl HLr] & HTn & HUn).
  set (s2 := iter_down n backward_step s1) in *.
  assert (Hid : forall i j, i < n -> j < n -> s2.1 i j = delta i j).
  { intros i j Hi Hj. unfold delta. case_decide.
    - subst j. by apply (HTn i).
    - destruct (decide (i < j)).
      + apply HUn; lia.
      + apply (HTn j); lia. }
  split; [done|]. split.
  - intros i j Hi Hj. rewrite HLl by done. by apply Hid.
  - intros i j Hi Hj. destruct HLr as (g & Hg1 & Hg2).
    rewrite <- (Hg2 i j) by done. apply sum_upto_ext. intros k Hk.
    f_equal. rewrite <- (Hg1 i k) by done.
    transitivity (sum_upto n (fun l => g i l * delta l k)%F);
      [|by apply sum_upto_delta_r].
    apply sum_upto_ext. intros l Hl. by rewrite Hid.
Qed.

(** *** Pivots of a product of a matrix with its transpose *)

Lemma sum_upto_swap n m (f : nat -> nat -> F) :
  sum_upto n (fun i => sum_upto m (fun j => f i j))
  = sum_upto m (fun j => sum_upto n (fun i => f i j)).
Proof.
  induction n as [|n IH]; simpl.
  - symmetry. by apply sum_upto_zero.
  - by rewrite IH, sum_upto_add.
Qed.

Lemma forward_step_unit_lower n p s :
  p < n -> unit_lower n p s.2 -> unit_lower n (S p) (forward_step n p s).2.
Proof.
  intros Hp [Hup Hdiag]. unfold forward_step.
  apply (iter_up_inv (fun _ t => unit_lower n (S p) t.2)); [lia| |].
  - destruct s as [a b]; simpl in *. split.
    + intros r k Hr Hk. case_decide; [|by apply Hup].
      rewrite Hup by done. rewrite div_mul_inv. ring.
    + intros r Hr Hrn. rewrite decide_False by lia. apply Hdiag; lia.
  - intros i t Hi [Hup' Hdiag']. destruct t as [a b]; simpl in *. split.
    + intros r k Hr Hk. case_decide; [|by apply Hup'].
      subst r. rewrite !Hup' by lia. ring.
    + intros r Hr Hrn. case_decide; [|by apply Hdiag'].
      subst r. rewrite Hdiag' by lia. rewrite Hup' by lia. ring.
Qed.

Lemma forward_unit_lower n (a0 : cells) p :
  p <= n -> unit_lower n p (iter_up 0 p (forward_step n) (a0, delta)).2.
Proof.
  induction p as [|p IH]; intros Hp.
  - split; simpl; intros; unfold delta.
    + by rewrite decide_False by lia.
    + by rewrite decide_True.
  - rewrite iter_up_S. apply forward_step_unit_lower; [lia|]. apply IH. lia.
Qed.

Lemma pivots_by_induction n (a0 : cells) :
  (forall p, p < n -> (forall q, q < p -> pivot n a0 q <> 0%F) ->
     pivot n a0 p <> 0%F) ->
  forall p, p < n -> pivot n a0 p <> 0%F.
Proof.
  intros Hstep p. induction p as [p IH] using lt_wf_ind. intros Hp.
  apply Hstep; [done|]. intros q Hq. apply IH; lia.
Qed.

(** A left inverse shows that a block is non-singular. *)
Lemma left_inverse_nonsingular n (A B : mat) :
  mat_prod B A n n n = mat_id n -> nonsingular n A.
Proof.
  intros Hinv v Hv j Hj.
  assert (Hc : forall i, i < n ->
            sum_upto n (fun k => cell B j k * cell A k i)%F = delta j i).
  { intros i Hi.
    rewrite <- (cell_tabulate n n (fun i j =>
      sum_upto n (fun k => cell B i k * cell A k j)%F) j i) by done.
    fold (mat_prod B A n n n). rewrite Hinv. by apply cell_tabulate. }
  transitivity (sum_upto n (fun i => delta j i * v i)%F);
    [symmetry; by apply (sum_upto_delta_l n j v)|].
  transitivity (sum_upto n (fun i =>
    sum_upto n (fun k => cell B j k * (cell A k i * v i))%F)).
  { apply sum_upto_ext. intros i Hi. rewrite <- Hc by done.
    rewrite <- sum_upto_scale_r. apply sum_upto_ext. intros k _. ring. }
  rewrite sum_upto_swap. apply sum_upto_zero. intros k Hk.
  rewrite sum_upto_scale_l, Hv by done. ring.
Qed.

Section Gram.

Context `{!Ordered F}.

Lemma nonneg_sum_squares n (u : nat -> F) :
  nonneg (sum_upto n (fun i => u i * u i)%F).
Proof.
  induction n as [|n IH]; simpl.
  - replace 0%F with (0 * 0)%F by ring. apply nonneg_square.
  - apply nonneg_add; [done|apply nonneg_square].
Qed.

Lemma sum_squares_zero n (u : nat -> F) :
  sum_upto n (fun i => u i * u i)%F = 0%F -> forall i, i < n -> u i = 0%F.
Proof.
  induction n as [|n IH]; simpl; intros Hs i Hi; [lia|].
  destruct (nonneg_sum_zero _ _ (nonneg_sum_squares n u)
              (nonneg_square (u n)) Hs) as [Hn Hu].
  destruct (decide (i = n)) as [->|Hne].
  - by apply square_zero.
  - apply IH; [done|lia].
Qed.

(** When the block is a product [Xt * X] that sends no vector but 0 to 0,
    the pivot of turn [p] is not 0 if the pivots before it were not. *)
Lemma gram_pivot_nonzero n h (x a0 : cells) p :
  (forall k j, k < n -> j < n ->
     a0 k j = sum_upto h (fun i => x i k * x i j)%F) ->
  (forall v : nat -> F,
     (forall i, i < n -> sum_upto n (fun k => a0 i k * v k)%F = 0%F) ->
     forall k, k < n -> v k = 0%F) ->
  p < n -> (forall q, q < p -> pivot n a0 q <> 0%F) ->
  pivot n a0 p <> 0%F.
Proof.
  intros Hgram Hns Hp Hprev Hzero. unfold pivot in Hzero.
  destruct (forward_inv n a0 p) as [[HL _] HT]; [lia|done|].
  destruct (forward_unit_lower n a0 p) as [Hup Hdiag]; [lia|].
  set (s := iter_up 0 p (forward_step n) (a0, delta)) in *.
  set (v := fun k => s.2 p k).
  set (u := fun i => sum_upto n (fun k => x i k * v k)%F).
  assert (Hw : forall j, j < n ->
            sum_upto n (fun k => v k * a0 k j)%F = s.1 p j)
    by (intros; by apply HL).
  assert (Hwu : forall j, j < n ->
            sum_upto n (fun k => v k * a0 k j)%F
            = sum_upto h (fun i => u i * x i j)%F).
  { intros j Hj.
    transitivity (sum_upto n (fun k =>
      sum_upto h (fun i => v k * x i k * x i j)%F)).
    - apply sum_upto_ext; intros k Hk. rewrite Hgram by done.
      rewrite <- sum_upto_scale_l. apply sum_upto_ext; intros; ring.
    - rewrite sum_upto_swap. apply sum_upto_ext; intros i Hi. unfold u.
      rewrite <- sum_upto_scale_r. apply sum_upto_ext; intros; ring. }
  assert (Hsq : sum_upto h (fun i => u i * u i)%F = 0%F).
  { transitivity (sum_upto n (fun j => v j * s.1 p j)%F).
    - transitivity (sum_upto h (fun i =>
        sum_upto n (fun j => u i * x i j * v j)%F)).
      + apply sum_upto_ext; intros i Hi. unfold u at 2.
        rewrite <- sum_upto_scale_l. apply sum_upto_ext; intros; ring.
      + rewrite sum_upto_swap. apply sum_upto_ext; intros j Hj.
        rewrite <- Hw, Hwu by done.
        rewrite <- sum_upto_scale_l. apply sum_upto_ext; intros; ring.
    - apply sum_upto_zero. intros j Hj.
      destruct (decide (j < p)) as [Hlt|Hge].
      + destruct (HT j Hlt) as [_ Hcol]. rewrite Hcol by lia. ring.
      + destruct (decide (j = p)) as [->|Hne].
        * rewrite Hzero. ring.
        * unfold v. rewrite Hup by lia. ring. }
  assert (Hu : forall i, i < h -> u i = 0%F) by (by apply sum_squares_zero).
  assert (Hv : forall k, k < n -> v k = 0%F).
  { apply Hns. intros j Hj.
    transitivity (sum_upto n (fun k =>
      sum_upto h (fun i => x i j * x i k * v k)%F)).
    - apply sum_upto_ext; intros k Hk. rewrite Hgram by done.
      by rewrite <- sum_upto_scale_r.
    - rewrite sum_upto_swap. apply sum_upto_zero. intros i Hi.
      transitivity (x i j * u i)%F; [|rewrite Hu by done; ring].
      unfold u. rewrite <- sum_upto_scale_l.
      apply sum_upto_ext; intros; ring. }
  apply (F_1_neq_0 scalar_field). rewrite <- (Hdiag p) by lia.
  by apply Hv.
Qed.

(** On the product of the transposed training matrix and the training
    matrix, elimination meets no zero pivot as soon as the product is
    non-singular. *)
Lemma gram_no_zero_pivot (f : file F) :
  nonsingular (attributes f + 1) (gram f) ->
  no_zero_pivot (attributes f + 1) (gram f).
Proof.
  intros Hns. unfold no_zero_pivot.
  apply pivots_by_induction. intros p Hp Hprev.
  apply (gram_pivot_nonzero (attributes f + 1) (houses f)
           (cell (design f))); [|done..].
  intros k j Hk Hj. unfold gram, mat_prod. rewrite cell_tabulate by done.
  apply sum_upto_ext. intros i Hi. unfold mat_transpose.
  by rewrite cell_tabulate.
Qed.

End Gram.

(** In exact arithmetic the order of the additions does not matter. *)
Lemma accumulate_sum (r : F) n (g : nat -> F) :
  accumulate r n g = (r + sum_upto n g)%F.
Proof. induction n as [|n IH]; simpl; [ring|rewrite IH; ring]. Qed.

Lemma inverted_correct n (A : mat) :
  no_zero_pivot n A ->
  eliminated n A = mat_id n /\
  mat_prod A (inverted n A) n n n = mat_id n /\
  mat_prod (inverted n A) A n n n = mat_id n.
Proof.
  intros Hpiv.
  destruct (gauss_jordan_correct n (cell A) Hpiv) as (Hid & Hleft & Hright).
  split; [|split].
  - by apply tabulate_ext.
  - apply tabulate_ext; intros i j Hi Hj.
    rewrite <- Hright by done. apply sum_upto_ext. intros k Hk.
    unfold inverted. by rewrite cell_tabulate.
  - apply tabulate_ext; intros i j Hi Hj.
    rewrite <- Hleft by done. apply sum_upto_ext. intros k Hk.
    unfold inverted. by rewrite cell_tabulate.
Qed.


End ExactArithmetic.

(** ** The claims that are exact in exact arithmetic only

    What the functions do in any arithmetic, and what this comes to when
    the arithmetic is exact. *)

(** C3, as the program has it.  [multiply] adds to every cell of the
    destination the products of the row of the first operand with the
    column of the second, one after the other in the order of the loop; on
    a destination of zeros the result is the product, summed in that
    order.  In exact arithmetic the cell ends as its old value plus the
    sum. *)
Theorem multiply_accumulates a b d rows cols inner (A B D : mat) (w : world F) :
  d <> a -> d <> b ->
  mem w !! a = Some A -> mem w !! b = Some B -> mem w !! d = Some D ->
  is_matrix rows inner A -> is_matrix inner cols B -> is_matrix rows cols D ->
  exists D',
    multiply a b d rows cols inner w
    = Some (d, upd d D' (entered (call_multiply a b d rows cols inner) w)) /\
    is_matrix rows cols D' /\
    (forall i j, i < rows -> j < cols ->
       cell D' i j
       = accumulate (cell D i j) inner (fun k => cell A i k * cell B k j)%F) /\
    (D = mat_zero rows cols -> D' = mat_prod A B rows cols inner) /\
    (Exact F -> forall i j, i < rows -> j < cols ->
       cell D' i j
       = (cell D i j + sum_upto inner (fun k => cell A i k * cell B k j))%F).
Proof.
  intros Hda Hdb Ha Hb Hd HA HB HD.
  eexists. split; [by apply (multiply_spec a b d rows cols inner A B D)|].
  split; [apply is_matrix_tabulate|]. split; [|split].
  - intros i j Hi Hj. by rewrite cell_tabulate.
  - intros ->. apply tabulate_ext. intros i j Hi Hj.
    unfold mat_zero. rewrite cell_tabulate by done. apply accumulate_zero.
  - intros E i j Hi Hj. rewrite cell_tabulate by done. apply accumulate_sum.
Qed.


(** C2, as the program has it.  The training part of [main] leaves in
    [vector_w] the vector [(Inv * Xt) * y], where [X] is the training
    matrix with its leading column of ones, [y] the targets, [Xt] the
    transpose of [X] and [Inv] the block that [inverse] has returned for
    [Xt * X]; every product is summed in the order of the loops.  The
    calls are those of [train_calls], in that order: [transpose],
    [multiply], [inverse], [multiply], [multiply], and the transpose and
    each product go into a block that [insertZeroes] has just cleared.  The
    inverse does not: [inverse] returns a block of its own, and the block
    that was cleared for it, the sixth of the heap, keeps its zeros.  In
    exact arithmetic, when [Xt * X] is non-singular, [Inv] is its two-sided
    inverse. *)
Theorem solver_normal_equations (f : file F) :
  let a := attributes f in
  let h := houses f in
  let X := design f in
  let y := targets f in
  let Xt := mat_transpose X h (a + 1) in
  let G := mat_prod Xt X (a + 1) (a + 1) h in
  exists Inv w,
    main_train f start = Some (train_vars f, w) /\
    mem w !! matrix_x (train_vars f) = Some X /\
    mem w !! vector_y (train_vars f) = Some y /\
    mem w !! transpose_x (train_vars f) = Some Xt /\
    mem w !! inverse_x (train_vars f) = Some Inv /\
    mem w !! result_x (train_vars f)
      = Some (mat_prod Inv Xt (a + 1) h (a + 1)) /\
    mem w !! vector_w (train_vars f)
      = Some (mat_prod (mat_prod Inv Xt (a + 1) h (a + 1)) y (a + 1) 1 h) /\
    calls w = train_calls f /\
    fresh_destinations [] (calls w) = true /\
    is_in (inverse_x (train_vars f)) (cleared_blocks (calls w)) = false /\
    mem w !! 5 = Some (mat_zero (a + 1) (a + 1)) /\
    (forall i, i < h -> cell X i 0 = 1%F) /\
    (forall i j, i < h -> j < a ->
       cell X i (j + 1) = nth (i * (a + 1) + j) (numbers f) 0%F) /\
    (forall i, i < h ->
       cell y i 0 = nth (i * (a + 1) + a) (numbers f) 0%F) /\
    (Exact F -> Ordered F ->
       nonsingular (a + 1) G ->
       mat_prod G Inv (a + 1) (a + 1) (a + 1) = mat_id (a + 1) /\
       mat_prod Inv G (a + 1) (a + 1) (a + 1) = mat_id (a + 1)).
Proof.
  intros a h X y Xt G.
  exists (inverted (a + 1) (gram f)), (after_training f).
  split; [apply main_train_run|].
  do 10 (split; [reflexivity|]).
  split; [|split; [|split]].
  - intros i Hi. unfold X, design. rewrite cell_tabulate by (done || lia).
    by rewrite decide_True.
  - intros i j Hi Hj. unfold X, design. rewrite cell_tabulate by (done || lia).
    rewrite decide_False by lia. by replace (j + 1 - 1) with j by lia.
  - intros i Hi. unfold y, targets. by rewrite cell_tabulate by (done || lia).
  - intros E O Hns.
    destruct (inverted_correct (a + 1) (gram f) (gram_no_zero_pivot f Hns))
      as (_ & Hr & Hl).
    by split.
Qed.

(** ** Further properties of the functions *)

(** *** insertZeroes *)

(** X1.  [insertZeroes] sets every cell of a [rows] by [cols] block to 0 and
    returns the pointer it was given; no other block changes, nothing is
    allocated and nothing is printed. *)
Theorem insertZeroes_clears m rows cols (X : mat) (w : world F) :
  mem w !! m = Some X -> is_matrix rows cols X ->
  exists Z w',
    insertZeroes m rows cols w = Some (m, w') /\
    mem w' !! m = Some Z /\
    is_matrix rows cols Z /\
    (forall i j, i < rows -> j < cols -> cell Z i j = 0%F) /\
    (forall l, l <> m -> mem w' !! l = mem w !! l) /\
    length (mem w') = length (mem w) /\
    out w' = out w.
Proof.
  intros Hm HX.
  assert (Hlt : m < length (mem w)) by (by eapply lookup_lt_Some).
  exists (mat_zero rows cols). eexists.
  split; [by apply (insertZeroes_spec m rows cols X)|].
  split; [apply mem_upd_eq; exact Hlt|].
  split; [apply is_matrix_tabulate|].
  split; [intros i j Hi Hj; unfold mat_zero; by rewrite cell_tabulate|].
  split; [intros l Hl; by rewrite mem_upd_ne|].
  split; [simpl; by rewrite length_insert|done].
Qed.

(** X2.  A destination that held anything at all holds the product alone once
    [insertZeroes] has been called on it before [multiply]. *)
Theorem multiply_after_insertZeroes a b d rows cols inner (A B D : mat)
    (w : world F) :
  d <> a -> d <> b ->
  mem w !! a = Some A -> mem w !! b = Some B -> mem w !! d = Some D ->
  is_matrix rows inner A -> is_matrix inner cols B -> is_matrix rows cols D ->
  exists P w',
    (insertZeroes d rows cols;; multiply a b d rows cols inner) w
    = Some (d, w') /\
    mem w' !! d = Some P /\
    is_matrix rows cols P /\
    (forall i j, i < rows -> j < cols ->
       cell P i j = sum_upto inner (fun k => cell A i k * cell B k j)%F).
Proof.
  intros Hda Hdb Ha Hb Hd HA HB HD.
  assert (Hlt : d < length (mem w)) by (by eapply lookup_lt_Some).
  exists (mat_prod A B rows cols inner). eexists. split.
  - erewrite bind_some; [|by apply (insertZeroes_spec d rows cols D)].
    apply (multiply_zero a b d rows cols inner A B); try done.
    + by rewrite mem_upd_ne.
    + by rewrite mem_upd_ne.
    + apply mem_upd_eq. exact Hlt.
  - split; [apply mem_upd_eq; simpl; by rewrite length_insert|].
    split; [apply is_matrix_tabulate|].
    intros i j Hi Hj. by apply cell_mat_prod.
Qed.

(** *** transpose *)

(** X3.  [transpose] called with one block as source and destination does not
    transpose it: the cells on and below the diagonal stay, and each cell
    above the diagonal gets the value of the cell opposite to it. *)
Theorem transpose_in_place m n (A : mat) (w : world F) :
  mem w !! m = Some A -> is_matrix n n A ->
  exists w',
    transpose m m n n w = Some (m, w') /\
    mem w' !! m = Some (lower_mirrored n A) /\
    (forall i j, j <= i -> i < n ->
       cell (lower_mirrored n A) i j = cell A i j /\
       cell (lower_mirrored n A) j i = cell A i j) /\
    (forall l, l <> m -> mem w' !! l = mem w !! l).
Proof.
  intros Hm HA.
  assert (Hlt : m < length (mem w)) by (by eapply lookup_lt_Some).
  set (w0 := entered (call_transpose m m n n) w).
  pose (g := fun i j => cell A (Nat.max i j) (Nat.min i j)).
  pose (Inv2 := fun (i j : nat) (w' : world F) =>
    exists Y, w' = upd m Y w0 /\ is_matrix n n Y /\
      forall i' j', i' < n -> j' < n ->
        cell Y i' j' = if decide (i' < i \/ (i' = i /\ j' < j))
                       then g i' j' else cell A i' j').
  assert (Hloop :
    for_up 0 n (fun i => for_up 0 n (fun j =>
      x <- load m j i;; store m i j x)) w0
    = Some (tt, upd m (lower_mirrored n A) w0)).
  { destruct (for_up_inv (fun i => Inv2 i 0) 0 n
                (fun i => for_up 0 n (fun j =>
                   x <- load m j i;; store m i j x)) w0)
      as (w' & Hrun & HI); [lia| | |].
    - exists A. split; [by rewrite upd_id|]. split; [done|].
      intros i' j' _ _. by rewrite decide_False by lia.
    - intros i w1 Hi HI.
      destruct (for_up_inv (Inv2 i) 0 n
                  (fun j => x <- load m j i;; store m i j x) w1)
        as (w2 & Hrun & HJ); [lia|done| |].
      + intros j w2 Hj (Y & -> & HY & Hc).
        exists (upd m (mset Y i j (g i j)) w0). split.
        * erewrite bind_some;
            [|apply (load_upd_eq n n); [exact Hlt|done|lia|lia]].
          replace (cell Y j i) with (g i j).
          { apply (store_upd_eq n n); [exact Hlt|done|lia|lia]. }
          rewrite Hc by lia. unfold g. case_decide.
          -- by rewrite Nat.max_comm, Nat.min_comm.
          -- rewrite Nat.max_r, Nat.min_l by lia. done.
        * exists (mset Y i j (g i j)). split; [done|].
          split; [by apply is_matrix_mset|].
          intros i' j' Hi' Hj'. rewrite (cell_mset n n) by (done || lia).
          rewrite Hc by done. cases.
      + exists w2. split; [done|].
        destruct HJ as (Y & -> & HY & Hc). exists Y. split; [done|].
        split; [done|]. intros i' j' Hi' Hj'. rewrite Hc by done.
        cases.
    - rewrite Hrun. destruct HI as (Y & -> & HY & Hc).
      do 3 f_equal. apply (mat_ext n n); [done|apply is_matrix_tabulate|].
      intros i j Hi Hj. unfold lower_mirrored.
      rewrite Hc, cell_tabulate by done.
      by rewrite decide_True by lia. }
  eexists. split.
  - unfold transpose. erewrite bind_some; [|reflexivity].
    erewrite bind_some; [|exact Hloop]. reflexivity.
  - split; [apply mem_upd_eq; exact Hlt|]. split.
    + intros i j Hji Hi. unfold lower_mirrored.
      rewrite !cell_tabulate by lia.
      rewrite Nat.max_l, Nat.min_r by lia.
      by rewrite Nat.max_r, Nat.min_l by lia.
    + intros l Hl. by rewrite mem_upd_ne.
Qed.

(** Lookups in a heap after some updates. *)
Ltac look :=
  simpl; rewrite ?list_lookup_insert_ne by done;
  first [ done
        | apply list_lookup_insert_eq; rewrite ?length_insert;
          by eapply lookup_lt_Some ].

Lemma writes_only_transpose src dst rows cols :
  writes_only (F := F) (A := loc) dst (transpose src dst rows cols).
Proof.
  unfold transpose. apply writes_only_bind; [apply writes_only_enter|intros _].
  apply writes_only_bind; [|intros; apply writes_only_ret].
  do 2 (apply writes_only_for_count; intros ?).
  apply writes_only_bind; [apply writes_only_load|intros ?].
  apply writes_only_store.
Qed.

(** X4.  Whatever its arguments, a call of [transpose] that returns has written
    to the destination block only, and returns the pointer to it. *)
Theorem transpose_writes_only_destination src dst rows cols
    (w w' : world F) r :
  transpose src dst rows cols w = Some (r, w') ->
  r = dst /\ forall l, l <> dst -> mem w' !! l = mem w !! l.
Proof.
  intros Hrun. split.
  - unfold transpose, bind, ret in Hrun.
    repeat case_match; by simplify_eq.
  - by apply (writes_only_transpose src dst rows cols w r w').
Qed.

(** *** Compositions of transpose and multiply

    The program multiplies in the order of its operands; the two
    statements below need that the product of two scalars does not depend
    on their order, which holds on [double]. *)

Section Compositions.

Context `{!Commutative F}.

Lemma mat_transpose_prod (A B : mat) rows cols inner :
  mat_transpose (mat_prod A B rows cols inner) rows cols
  = mat_prod (mat_transpose B inner cols) (mat_transpose A rows inner)
      cols rows inner.
Proof.
  apply tabulate_ext. intros i j Hi Hj. rewrite cell_mat_prod by done.
  apply sum_upto_ext. intros k Hk.
  rewrite !cell_mat_transpose by done. apply mul_comm.
Qed.

(** X5.  The product of the transpose of a block with the block, formed as
    lines 174 and 185 form it, is symmetric. *)
Theorem product_with_transpose_symmetric x t p rows cols (X T : mat)
    (w : world F) :
  x <> t -> p <> x -> p <> t ->
  mem w !! x = Some X -> mem w !! t = Some T ->
  mem w !! p = Some (mat_zero cols cols) ->
  is_matrix rows cols X -> is_matrix cols rows T ->
  exists G w',
    (transpose x t rows cols;; multiply t x p cols cols rows) w
    = Some (p, w') /\
    mem w' !! p = Some G /\
    (forall i j, i < cols -> j < cols ->
       cell G i j = sum_upto rows (fun k => cell X k i * cell X k j)%F) /\
    (forall i j, i < cols -> j < cols -> cell G i j = cell G j i).
Proof.
  intros Hxt Hpx Hpt Hx Ht Hp HX HT.
  set (Xt := mat_transpose X rows cols).
  assert (Hc : forall i j, i < cols -> j < cols ->
            cell (mat_prod Xt X cols cols rows) i j
            = sum_upto rows (fun k => cell X k i * cell X k j)%F).
  { intros i j Hi Hj. rewrite cell_mat_prod by done.
    apply sum_upto_ext. intros k Hk. unfold Xt.
    by rewrite cell_mat_transpose. }
  exists (mat_prod Xt X cols cols rows). eexists. split; [|split; [|split]].
  - erewrite bind_some; [|by apply (transpose_spec x t rows cols X T)].
    apply (multiply_zero t x p cols cols rows Xt X);
      [done|done|look|look|look|apply is_matrix_tabulate|done].
  - look.
  - exact Hc.
  - intros i j Hi Hj. rewrite !Hc by done.
    apply sum_upto_ext. intros k Hk. apply mul_comm.
Qed.

(** X7.  The transpose of a product is the product of the transposes in the
    opposite order. *)
Theorem transpose_of_product a b p pt at' bt q rows cols k
    (A B PT AT BT : mat) (w : world F) :
  p <> a -> p <> b -> p <> pt -> a <> at' -> b <> bt -> b <> at' ->
  at' <> bt -> q <> at' -> q <> bt ->
  mem w !! a = Some A -> mem w !! b = Some B ->
  mem w !! p = Some (mat_zero rows cols) -> mem w !! pt = Some PT ->
  mem w !! at' = Some AT -> mem w !! bt = Some BT ->
  mem w !! q = Some (mat_zero cols rows) ->
  is_matrix rows k A -> is_matrix k cols B -> is_matrix cols rows PT ->
  is_matrix k rows AT -> is_matrix cols k BT ->
  exists P w1 w2,
    (multiply a b p rows cols k;; transpose p pt rows cols) w
    = Some (pt, w1) /\
    (transpose a at' rows k;; transpose b bt k cols;;
     multiply bt at' q cols rows k) w
    = Some (q, w2) /\
    mem w1 !! pt = Some P /\
    mem w2 !! q = Some P.
Proof.
  intros ????????? Ha Hb Hp Hpt Hat Hbt Hq HA HB HPT HAT HBT.
  exists (mat_transpose (mat_prod A B rows cols k) rows cols).
  eexists _, _. split; [|split; [|split]].
  - erewrite bind_some; [|by apply (multiply_zero a b p rows cols k A B)].
    apply (transpose_spec p pt rows cols (mat_prod A B rows cols k) PT);
      [done|look|look|apply is_matrix_tabulate|done].
  - erewrite bind_some; [|by apply (transpose_spec a at' rows k A AT)].
    erewrite bind_some;
      [|apply (transpose_spec b bt k cols B BT); [done|look|look|done|done]].
    apply (multiply_zero bt at' q cols rows k
             (mat_transpose B k cols) (mat_transpose A rows k));
      [done|done|look|look|look|apply is_matrix_tabulate..].
  - look.
  - rewrite mat_transpose_prod. look.
Qed.

End Compositions.

(** *** inverse *)

(** X8.  [inverse] has no error exit: on every square block, also one on
    which a pivot is zero, it returns a pointer to a block that it has
    allocated; it writes to that block and to its argument only, and
    prints nothing. *)
Theorem inverse_touches_only_argument n mx (A : mat) (w : world F) :
  mem w !! mx = Some A -> is_matrix n n A ->
  exists Y w',
    inverse mx n n w = Some (length (mem w), w') /\
    length (mem w') = Datatypes.S (length (mem w)) /\
    mem w' !! length (mem w) = Some Y /\
    is_matrix n n Y /\
    (forall l, l <> mx -> l < length (mem w) -> mem w' !! l = mem w !! l) /\
    out w' = out w.
Proof.
  intros Hm HA.
  assert (Hlt : mx < length (mem w)) by (by eapply lookup_lt_Some).
  exists (inverted n A). eexists.
  split; [by apply inverse_run|]. simpl.
  split; [rewrite length_app, length_insert; simpl; lia|].
  split.
  { rewrite <- (length_insert (mem w) mx (eliminated n A)).
    by apply list_lookup_middle. }
  split; [apply is_matrix_tabulate|]. split; [|done].
  intros l Hl Hlen.
  rewrite lookup_app_l by (by rewrite length_insert).
  by apply list_lookup_insert_ne.
Qed.

(** X9.  [inverse] gives each row of the block it allocates [rows] cells and
    then initialises [cols] cells of it: with more columns than rows the
    first row is written beyond its end. *)
Theorem inverse_overflows_when_wider mx rows cols (w : world F) :
  0 < rows -> rows < cols -> inverse mx rows cols w = None.
Proof.
  intros Hrows Hcols. unfold inverse.
  erewrite bind_some; [|reflexivity].
  erewrite bind_some; [|apply malloc_matrix_spec].
  set (idl := length (mem (entered (call_inverse mx rows cols) w))).
  set (w1 := set_mem _ _).
  assert (Hidl : idl < length (mem w1)).
  { unfold w1, idl. simpl. rewrite length_app. simpl. lia. }
  assert (HJ : mem w1 !! idl = Some (replicate rows (replicate rows indet))).
  { unfold w1, idl. simpl. by apply list_lookup_middle. }
  apply bind_none. unfold for_up at 1.
  destruct rows as [|r]; [lia|]. simpl. apply bind_none.
  unfold for_up. replace (cols - 0) with (Datatypes.S r + (cols - Datatypes.S r)) by lia.
  rewrite for_count_app.
  destruct (for_count_inv (fun _ w' =>
      exists Y, w' = upd idl Y w1 /\ is_matrix (Datatypes.S r) (Datatypes.S r) Y)
    (fun j => if decide (0 = j) then store idl 0 j 1%F
              else store idl 0 j 0%F) (Datatypes.S r) 0 w1)
    as (w2 & Hrun & Y & -> & HY).
  { eexists. split; [by rewrite upd_id|]. apply is_matrix_replicate. }
  { intros j w' Hj (Y & -> & HY).
    exists (upd idl (mset Y 0 j (if decide (0 = j) then 1%F else 0%F)) w1).
    split.
    - destruct (decide (0 = j));
        apply (store_upd_eq (Datatypes.S r) (Datatypes.S r));
        first [exact Hidl | done | lia].
    - eexists. split; [done|]. by apply is_matrix_mset. }
  erewrite bind_some; [|exact Hrun].
  destruct (cols - Datatypes.S r) as [|e] eqn:He; [lia|].
  simpl. apply bind_none.
  destruct (is_matrix_lookup _ _ _ 0 HY) as (row & Hrow & Hlen); [lia|].
  unfold store. rewrite mem_upd_eq by exact Hidl. rewrite Hrow.
  by rewrite decide_False by lia.
Qed.

(** *** inverse on the identity

    On the identity every division is by 1 and every product is with 0:
    the laws of [ZeroOne] are all that the elimination needs. *)

Section Identity.

Context `{!ZeroOne F}.

Lemma delta_div_one (i j : nat) : (delta i j / 1)%F = delta (F := F) i j.
Proof.
  unfold delta. case_decide; [apply one_div_one|apply zero_div_one].
Qed.

Lemma delta_sub_zero_mul (i j p : nat) :
  (delta i j - 0 * delta p j)%F = delta (F := F) i j.
Proof.
  unfold delta. destruct (decide (p = j)).
  - rewrite zero_mul_one.
    case_decide; [apply one_sub_zero|apply zero_sub_zero].
  - rewrite zero_mul_zero.
    case_decide; [apply one_sub_zero|apply zero_sub_zero].
Qed.

Lemma scale_op_identity n p s :
  p < n -> both_identity n s -> both_identity n (scale_op p s).
Proof.
  intros Hp Hs i j Hi Hj. unfold scale_op. simpl.
  destruct (Hs i j Hi Hj) as [H1 H2]. destruct (Hs p p Hp Hp) as [Hpp _].
  case_decide; [|done].
  rewrite H1, H2, Hpp.
  replace (delta (F := F) p p) with (1%F : F)
    by (unfold delta; by rewrite decide_True).
  by rewrite delta_div_one.
Qed.

Lemma elim_op_identity n p i s :
  p < n -> i < n -> i <> p ->
  both_identity n s -> both_identity n (elim_op p i s).
Proof.
  intros Hp Hi Hne Hs r j Hr Hj. unfold elim_op. simpl.
  destruct (Hs r j Hr Hj) as [H1 H2].
  case_decide; [|done]. subst r.
  destruct (Hs i p Hi Hp) as [Hip _]. destruct (Hs p j Hp Hj) as [Hpj1 Hpj2].
  rewrite H1, H2, Hip, Hpj1, Hpj2.
  replace (delta (F := F) i p) with (0%F : F)
    by (unfold delta; by rewrite decide_False).
  by rewrite delta_sub_zero_mul.
Qed.

Lemma gauss_jordan_identity n s :
  both_identity n s -> both_identity n (gauss_jordan n s).
Proof.
  intros Hs. unfold gauss_jordan.
  apply (iter_down_inv (fun k s => k <= n /\ both_identity n s)); [split; [lia|]|].
  - apply (iter_up_inv (fun _ => both_identity n)); [lia|done|].
    intros p s' Hp Hs'. unfold forward_step.
    apply (iter_up_inv (fun _ => both_identity n)); [lia| |].
    + apply scale_op_identity; [lia|done].
    + intros i s'' Hi Hs''. apply elim_op_identity; [lia|lia|lia|done].
  - intros p s' Hp [_ Hs']. split; [lia|]. unfold backward_step.
    apply (iter_down_inv (fun _ => both_identity n)); [done|].
    intros i s'' Hi Hs''. apply elim_op_identity; [lia|lia|lia|done].
Qed.

Lemma gauss_jordan_id n :
  eliminated n (mat_id n) = mat_id n /\ inverted n (mat_id n) = mat_id n.
Proof.
  assert (Hs : both_identity n (gauss_jordan n (cell (mat_id n), delta))).
  { apply gauss_jordan_identity. intros i j Hi Hj. simpl.
    split; [by apply cell_mat_id|done]. }
  split; apply tabulate_ext; intros i j Hi Hj; by apply Hs.
Qed.

(** X10.  The inverse of the identity is the identity. *)
Theorem inverse_of_identity n mx (w : world F) :
  mem w !! mx = Some (mat_id n) ->
  exists w',
    inverse mx n n w = Some (length (mem w), w') /\
    mem w' !! length (mem w) = Some (mat_id n) /\
    mem w' !! mx = Some (mat_id n).
Proof.
  intros Hm.
  assert (Hlt : mx < length (mem w)) by (by eapply lookup_lt_Some).
  destruct (gauss_jordan_id n) as [HX HY].
  eexists. split; [apply inverse_run; [done|apply is_matrix_tabulate]|].
  rewrite HX, HY. simpl. split.
  - rewrite <- (length_insert (mem w) mx (mat_id n)).
    by apply list_lookup_middle.
  - rewrite lookup_app_l by (by rewrite length_insert).
    by apply list_lookup_insert_eq.
Qed.

End Identity.

(** *** Printing, whatever the number of columns *)

Lemma print_rows (fmt : F -> string) m rows cols (Y : mat) (w : world F) :
  mem w !! m = Some Y -> is_matrix rows cols Y ->
  for_up 0 rows (fun i =>
    for_up 0 cols (fun j => x <- load m i j;; printf (fmt x));;
    printf (String "010" "")) w
  = Some (tt, printed (rows_text fmt Y rows cols) w).
Proof.
  intros Hm HY.
  destruct (for_up_inv
    (fun i w' => w' = printed (rows_text fmt Y i cols) w) 0 rows
    (fun i =>
      for_up 0 cols (fun j => x <- load m i j;; printf (fmt x));;
      printf (String "010" "")) w) as (w' & Hrun & ->); [lia| | |done].
  - unfold printed. simpl. rewrite append_empty_r. by destruct w.
  - intros i w' Hi ->.
    destruct (for_up_inv
      (fun j w' =>
         w' = printed (rows_text fmt Y i cols ++ row_text fmt Y i j) w)
      0 cols (fun j => x <- load m i j;; printf (fmt x))
      (printed (rows_text fmt Y i cols) w)) as (w' & Hrow & ->); [lia| | |].
    + simpl. by rewrite append_empty_r.
    + intros j w' Hj ->. eexists. split.
      * erewrite bind_some;
          [|by apply (load_ok rows cols m Y); [|done|lia|lia]].
        reflexivity.
      * unfold printed. simpl. by rewrite !append_assoc.
    + eexists. split.
      * erewrite bind_some; [|exact Hrow]. reflexivity.
      * unfold printed, newline. simpl. by rewrite !append_assoc.
Qed.

(** X13.  [printPriceMatrix] prints the cells of a row one after the other with
    nothing between them, and a line break after each row; what was
    printed before stays, and neither the heap nor the input changes. *)
Theorem printPriceMatrix_prints_rows m rows cols (Y : mat) (w : world F) :
  mem w !! m = Some Y -> is_matrix rows cols Y ->
  exists w',
    printPriceMatrix m rows cols w = Some (tt, w') /\
    out w' = (out w ++ rows_text fmt_0f Y rows cols)%string /\
    mem w' = mem w /\ in1 w' = in1 w /\ in2 w' = in2 w.
Proof.
  intros Hm HY. eexists. split.
  - unfold printPriceMatrix. erewrite bind_some; [|reflexivity].
    by apply (print_rows fmt_0f m rows cols Y).
  - done.
Qed.

Section Debugging.

Context `{!Libc_lf F}.

(** X14.  [printMatrix] prints every cell under [%lf] with a space after it,
    also after the last cell of a row, and a line break after each row;
    it changes neither the heap nor the input. *)
Theorem printMatrix_prints_rows m rows cols (Y : mat) (w : world F) :
  mem w !! m = Some Y -> is_matrix rows cols Y ->
  exists w',
    printMatrix m rows cols w = Some (tt, w') /\
    out w' = (out w ++ rows_text (fun x => fmt_lf x ++ " ") Y rows cols)%string /\
    mem w' = mem w /\ in1 w' = in1 w /\ in2 w' = in2 w.
Proof.
  intros Hm HY. eexists. split.
  - unfold printMatrix.
    by apply (print_rows (fun x => (fmt_lf x ++ " ")%string) m rows cols Y).
  - done.
Qed.

End Debugging.

(** *** Files that are short or long *)

(** X15.  A number that a file lacks is read as 0: with zeros appended to the
    numbers of either file, [main] ends with the same heap and the same
    output. *)
Theorem missing_numbers_read_as_zero (train data : file F) k1 k2 :
  exists w w',
    main train data start = Some (0%Z, w) /\
    main (with_numbers train (numbers train ++ replicate k1 0%F))
         (with_numbers data (numbers data ++ replicate k2 0%F)) start
    = Some (0%Z, w') /\
    mem w' = mem w /\
    out w' = out w.
Proof.
  eexists _, _. split; [apply main_run|]. split; [apply main_run|].
  destruct (design_targets_ext train
              (with_numbers train (numbers train ++ replicate k1 0%F)))
    as [Hd Ht]; [done|done|intros; apply nth_app_zeros|].
  apply after_main_ext; try done.
  apply query_ext; [done|done|]. intros. apply nth_app_zeros.
Qed.

(** X16.  [main] reads as many numbers as the headers announce and no more:
    what follows them in either file changes neither the heap nor the
    output, and is still unread at the end. *)
Theorem surplus_numbers_unread (train data : file F) (e1 e2 : list F) :
  houses train * (attributes train + 1) <= length (numbers train) ->
  houses data * attributes data <= length (numbers data) ->
  exists w w',
    main train data start = Some (0%Z, w) /\
    main (with_numbers train (numbers train ++ e1))
         (with_numbers data (numbers data ++ e2)) start
    = Some (0%Z, w') /\
    mem w' = mem w /\
    out w' = out w /\
    in1 w = drop (houses train * (attributes train + 1)) (numbers train) /\
    in1 w' = (in1 w ++ e1)%list /\
    (attributes train = attributes data ->
       in2 w = drop (houses data * attributes data) (numbers data) /\
       in2 w' = (in2 w ++ e2)%list).
Proof.
  intros H1 H2.
  eexists _, _. split; [apply main_run|]. split; [apply main_run|].
  destruct (design_targets_ext train (with_numbers train (numbers train ++ e1)))
    as [Hd Ht]; [done|done| |].
  { intros i Hi. simpl. apply app_nth1. lia. }
  assert (Hq : query (with_numbers data (numbers data ++ e2)) = query data).
  { apply query_ext; [done|done|]. intros i Hi. simpl. apply app_nth1. lia. }
  destruct (after_main_ext train (with_numbers train (numbers train ++ e1))
              data (with_numbers data (numbers data ++ e2)))
    as [Hmem Hout]; try done.
  split; [done|]. split; [done|].
  unfold after_main. simpl.
  split; [by case_decide|]. split.
  - case_decide; simpl; by rewrite drop_app_le.
  - intros Heq. rewrite !decide_True by done. simpl.
    split; [done|]. by rewrite drop_app_le.
Qed.

(** *** No training row *)

(** X17.  With no training row the loops of [multiply] over the rows add
    nothing: the product handed to [inverse] is a block of zeros, so that
    the first value by which line 54 divides is 0; whatever [inverse] makes
    of it, the training part ends, and [vector_w] holds the zeros that
    [insertZeroes] wrote. *)
Theorem empty_training_divides_by_zero (f : file F) :
  houses f = 0 ->
  let n := attributes f + 1 in
  exists w,
    main_train f start = Some (train_vars f, w) /\
    gram f = mat_zero n n /\
    pivot n (cell (gram f)) 0 = 0%F /\
    mem w !! 4 = Some (eliminated n (mat_zero n n)) /\
    mem w !! inverse_x (train_vars f) = Some (inverted n (mat_zero n n)) /\
    mem w !! vector_w (train_vars f) = Some (mat_zero n 1).
Proof.
  intros Hh n.
  assert (HG : gram f = mat_zero n n).
  { unfold gram, mat_prod, mat_zero. apply tabulate_ext.
    intros i j _ _. by rewrite Hh. }
  exists (after_training f). split; [apply main_train_run|].
  split; [done|]. split; [|split; [|split]].
  - unfold pivot, iter_up. simpl. rewrite HG. unfold mat_zero.
    rewrite cell_tabulate by (unfold n; lia). done.
  - unfold after_training. fold n. by rewrite HG.
  - unfold after_training. fold n. by rewrite HG.
  - unfold after_training, trained, coefficients. simpl.
    f_equal. unfold mat_prod, mat_zero. apply tabulate_ext.
    intros i j _ _. by rewrite Hh.
Qed.

(** *** The second part of main *)

(** X19.  With equal attribute counts the second part of [main] allocates two
    blocks, the query matrix with its leading column of ones and the
    predictions, and changes none of the blocks of the training part. *)
Theorem estimation_appends_two_blocks (train data : file F) :
  attributes train = attributes data ->
  exists w1 Y w',
    main_train train start = Some (train_vars train, w1) /\
    main train data start = Some (0%Z, w') /\
    mem w' = (mem w1 ++ [query data; Y])%list /\
    is_matrix (houses data) 1 Y /\
    (forall i, i < houses data -> cell (query data) i 0 = 1%F) /\
    (forall i j, i < houses data -> j < attributes data ->
       cell (query data) i (j + 1)
       = nth (i * attributes data + j) (numbers data) 0%F) /\
    calls w' = (calls w1 ++ estimate_calls data)%list.
Proof.
  intros Ha. eexists _, _, _.
  split; [apply main_train_run|]. split; [apply main_run|].
  unfold after_main. rewrite decide_True by done.
  split; [reflexivity|]. split; [apply is_matrix_tabulate|].
  split; [|split; [|reflexivity]].
  - intros i Hi. unfold query. rewrite cell_tabulate by lia.
    by rewrite decide_True.
  - intros i j Hi Hj. unfold query. rewrite cell_tabulate by lia.
    rewrite decide_False by lia. by replace (j + 1 - 1) with j by lia.
Qed.

End Correctness.

(** ** The program on the rationals *)

(** *** The order of the rationals *)

Lemma Q_square_nonneg (q : Q) : (0 <= q * q)%Q.
Proof.
  destruct (Qlt_le_dec q 0) as [Hn|Hp].
  - assert (E : (q * q == (- q) * (- q))%Q) by ring.
    rewrite E. apply Qmult_le_0_compat; lra.
  - by apply Qmult_le_0_compat.
Qed.

Lemma Qc_nonneg_square (x : Qc) : (0 <= x * x)%Qc.
Proof.
  change (0 <= Qred (x * x))%Q. rewrite Qred_correct. apply Q_square_nonneg.
Qed.

Lemma Qc_nonneg_add (x y : Qc) :
  (0 <= x)%Qc -> (0 <= y)%Qc -> (0 <= x + y)%Qc.
Proof.
  intros Hx Hy. change (0 <= x)%Q in Hx. change (0 <= y)%Q in Hy.
  change (0 <= Qred (x + y))%Q. rewrite Qred_correct. lra.
Qed.

Lemma Qc_nonneg_sum_zero (x y : Qc) :
  (0 <= x)%Qc -> (0 <= y)%Qc -> (x + y)%Qc = Q2Qc 0 ->
  x = Q2Qc 0 /\ y = Q2Qc 0.
Proof.
  intros Hx Hy Hs. change (0 <= x)%Q in Hx. change (0 <= y)%Q in Hy.
  apply (f_equal this) in Hs. change (Qred (x + y) = 0%Q) in Hs.
  assert (Hq : (x + y == 0)%Q)
    by (rewrite <- (Qred_correct (x + y)), Hs; reflexivity).
  split; apply Qc_is_canon; change (this (Q2Qc 0)) with 0%Q; lra.
Qed.

Lemma Qc_square_zero (x : Qc) : (x * x)%Qc = Q2Qc 0 -> x = Q2Qc 0.
Proof.
  intros Hs. apply (f_equal this) in Hs. change (Qred (x * x) = 0%Q) in Hs.
  assert (Hq : (x * x == 0)%Q)
    by (rewrite <- (Qred_correct (x * x)), Hs; reflexivity).
  apply Qc_is_canon. change (this (Q2Qc 0)) with 0%Q.
  destruct (Qmult_integral _ _ Hq); done.
Qed.

#[global] Instance Qc_ordered : Ordered Qc := {|
  nonneg := fun x => (0 <= x)%Qc;
  nonneg_square := Qc_nonneg_square;
  nonneg_add := Qc_nonneg_add;
  nonneg_sum_zero := Qc_nonneg_sum_zero;
  square_zero := Qc_square_zero
|}.

(** Blocks of rationals with the same fractions are equal. *)
Lemma fractions_inj (X Y : list (list Qc)) :
  fractions X = fractions Y -> X = Y.
Proof.
  unfold fractions. revert Y.
  induction X as [|r X IH]; intros [|r' Y] HXY; simplify_eq/=; [done|].
  f_equal; [|by apply IH].
  clear IH. revert r' H. induction r as [|x r IH]; intros [|x' r'] Hr;
    simplify_eq/=; [done|].
  f_equal; [|by apply IH].
  apply Qc_is_canon. by rewrite H.
Qed.

(** ** The program on binary64 *)

(** *** The laws that hold on [double] *)

Lemma SFmul_comm prec emax (x y : spec_float) :
  SFmul prec emax x y = SFmul prec emax y x.
Proof.
  destruct x as [sx|sx| |sx mx ex], y as [sy|sy| |sy my ey]; simpl;
    rewrite ?(xorb_comm sx sy); try reflexivity.
  by rewrite (Pos.mul_comm mx my), (Z.add_comm ex ey).
Qed.

#[global] Instance double_commutative : Commutative float.
Proof.
  intros x y. apply Prim2SF_inj. simpl.
  rewrite !mul_spec. apply SFmul_comm.
Qed.

#[global] Instance double_zero_one : ZeroOne float.
Proof. split; reflexivity. Qed.

(** *** What [%.0f] prints *)

Lemma round_half_even_nearest (n : Z) (d : positive) :
  (2 * Z.abs (n - round_half_even n d * Zpos d) <= Zpos d)%Z.
Proof.
  unfold round_half_even.
  pose proof (Z.div_mod n (Zpos d) ltac:(lia)) as Hdm.
  pose proof (Z.mod_pos_bound n (Zpos d) ltac:(lia)) as Hb.
  set (q := (n / Zpos d)%Z) in *. set (r := (n mod Zpos d)%Z) in *.
  destruct (Z.compare_spec (2 * r) (Zpos d)) as [He|Hl|Hg].
  - destruct (Z.even q); nia.
  - nia.
  - nia.
Qed.

Lemma round_half_even_tie (n : Z) (d : positive) :
  (2 * Z.abs (n - round_half_even n d * Zpos d) = Zpos d)%Z ->
  Z.even (round_half_even n d) = true.
Proof.
  unfold round_half_even.
  pose proof (Z.div_mod n (Zpos d) ltac:(lia)) as Hdm.
  pose proof (Z.mod_pos_bound n (Zpos d) ltac:(lia)) as Hb.
  set (q := (n / Zpos d)%Z) in *. set (r := (n mod Zpos d)%Z) in *.
  destruct (Z.compare_spec (2 * r) (Zpos d)) as [He|Hl|Hg].
  - destruct (Z.even q) eqn:Hq; [done|].
    intros _. by rewrite Z.even_add, Hq.
  - nia.
  - nia.
Qed.

Lemma round_half_even_nonneg (n : Z) (d : positive) :
  (0 <= n)%Z -> (0 <= round_half_even n d)%Z.
Proof.
  intros Hn. unfold round_half_even.
  pose proof (Z.div_pos n (Zpos d) Hn ltac:(lia)).
  destruct (2 * (n mod Zpos d) ?= Zpos d)%Z; [destruct (Z.even _)|..]; lia.
Qed.

Lemma nearest_integer_nonneg m e : (0 <= nearest_integer m e)%Z.
Proof.
  unfold nearest_integer. destruct (0 <=? e)%Z eqn:He.
  - apply Z.leb_le in He.
    pose proof (Z.pow_pos_nonneg 2 e ltac:(lia) He). lia.
  - apply round_half_even_nonneg. lia.
Qed.

Lemma nearest_integer_nearest m e : nearest_to (nearest_integer m e) m e.
Proof.
  unfold nearest_to, nearest_integer. destruct (0 <=? e)%Z eqn:He; [done|].
  apply Z.leb_gt in He.
  assert (Hp : (0 < 2 ^ (- e))%Z) by (apply Z.pow_pos_nonneg; lia).
  assert (Hd : Zpos (Z.to_pos (2 ^ (- e))) = (2 ^ (- e))%Z)
    by (by apply Z2Pos.id).
  pose proof (round_half_even_nearest (Zpos m) (Z.to_pos (2 ^ (- e)))) as Hn.
  pose proof (round_half_even_tie (Zpos m) (Z.to_pos (2 ^ (- e)))) as Ht.
  rewrite Hd in Hn, Ht.
  set (r := round_half_even (Zpos m) (Z.to_pos (2 ^ (- e)))) in *.
  rewrite <- Z.abs_opp in Hn, Ht.
  replace (- (Zpos m - r * 2 ^ (- e)))%Z with (r * 2 ^ (- e) - Zpos m)%Z
    in Hn, Ht by lia.
  split; [exact Hn|exact Ht].
Qed.

Lemma plain_append (s1 s2 : string) :
  plain (s1 ++ s2) = plain s1 && plain s2.
Proof.
  induction s1 as [|c s1 IH]; simpl; [done|].
  rewrite IH. by rewrite andb_assoc.
Qed.

Lemma plain_string_of_uint (u : Decimal.uint) :
  plain (NilEmpty.string_of_uint u) = true.
Proof. induction u; simpl; done. Qed.

Lemma plain_decimal (z : Z) : plain (decimal z) = true.
Proof.
  unfold decimal, NilZero.string_of_uint.
  destruct (N.to_uint (Z.to_N z)) eqn:Hu; try done;
    rewrite <- Hu; apply plain_string_of_uint.
Qed.

Lemma plain_sign_text s : plain (sign_text s) = true.
Proof. by destruct s. Qed.

Lemma plain_fmt_0f_double (x : float) : plain (fmt_0f x) = true.
Proof.
  simpl. unfold fmt_0f_double.
  destruct (Prim2SF x) as [s|s| |s m e];
    rewrite ?plain_append, ?plain_sign_text, ?plain_decimal; reflexivity.
Qed.

Lemma line_count_append (s1 s2 : string) :
  line_count (s1 ++ s2) = line_count s1 + line_count s2.
Proof.
  induction s1 as [|c s1 IH]; simpl; [done|].
  rewrite IH. by destruct (Ascii.eqb c "010").
Qed.

Lemma line_count_plain (s : string) : plain s = true -> line_count s = 0.
Proof.
  induction s as [|c s IH]; simpl; [done|].
  destruct (Ascii.eqb c "010"); simpl.
  - by rewrite andb_false_r.
  - intros Hp. apply IH. by apply andb_true_iff in Hp as [_ Hp].
Qed.

Lemma line_count_price_lines (Y : list (list float)) rows :
  line_count (price_lines Y rows) = rows.
Proof.
  induction rows as [|r IH]; simpl; [done|].
  rewrite !line_count_append, IH, line_count_plain
    by apply plain_fmt_0f_double.
  simpl. lia.
Qed.

(** *** The claims about the whole program *)

(** C5, as the program has it.  With equal attribute counts [main] returns
    0 after printing one line per query row, in order: the prediction of
    the row under [%.0f].  The text has no decimal point.  For a
    prediction that is a number other than 0 it is the sign and the digits
    of the integer nearest to the magnitude, the even one when two are
    equally near: the value is rounded, not cut off.  A zero is printed as
    0 with its sign, an infinite prediction as inf with its sign, and one
    that is not a number as -nan. *)
Theorem prices_are_rounded (train data : file float) :
  attributes train = attributes data ->
  let Y := predictions train data
             (inverted (attributes train + 1) (gram train)) in
  exists w',
    main train data start = Some (0%Z, w') /\
    mem w' !! 9 = Some Y /\
    out w' = price_lines Y (houses data) /\
    line_count (out w') = houses data /\
    forall x : float,
      plain (fmt_0f x) = true /\
      (forall s m e, Prim2SF x = S754_finite s m e ->
         exists n : Z,
           fmt_0f x = sign_text s ++ decimal n /\
           (0 <= n)%Z /\ nearest_to n m e) /\
      (forall s, Prim2SF x = S754_zero s -> fmt_0f x = sign_text s ++ "0") /\
      (forall s, Prim2SF x = S754_infinity s ->
         fmt_0f x = sign_text s ++ "inf") /\
      (Prim2SF x = S754_nan -> fmt_0f x = "-nan").
Proof.
  intros Heq Y. exists (after_main train data).
  split; [apply main_run|].
  unfold after_main. rewrite decide_True by done.
  split; [done|]. split; [done|].
  split; [apply line_count_price_lines|].
  intros x. split; [apply plain_fmt_0f_double|].
  simpl. unfold fmt_0f_double. split; [|split; [|split]].
  - intros s m e ->. exists (nearest_integer m e).
    split; [done|].
    split; [apply nearest_integer_nonneg|apply nearest_integer_nearest].
  - by intros s ->.
  - by intros s ->.
  - by intros ->.
Qed.

(** C5 as stated fails: the prediction 2.75 is printed as 3, and cut off
    at its integer part it would be 2; so it is in binary64 and on the
    rationals. *)
Lemma prices_are_not_truncated :
  (exists w' Y,
     main flat_train_d flat_query_d start = Some (0%Z, w') /\
     mem w' !! 9 = Some Y /\
     Y = [[2.75%float]] /\
     out w' = "3" ++ newline /\
     fmt_truncated_double (cell Y 0 0) ++ newline = "2" ++ newline /\
     out w' <> fmt_truncated_double (cell Y 0 0) ++ newline) /\
  (exists w' Y,
     main flat_train flat_query start = Some (0%Z, w') /\
     mem w' !! 9 = Some Y /\
     fractions Y = [[11 # 4]] /\
     out w' = "3" ++ newline /\
     fmt_truncated (cell Y 0 0) ++ newline = "2" ++ newline /\
     out w' <> fmt_truncated (cell Y 0 0) ++ newline).
Proof.
  split.
  - eexists _, _. split; [vm_compute; reflexivity|].
    split; [vm_compute; reflexivity|].
    split; [vm_compute; reflexivity|].
    split; [vm_compute; reflexivity|].
    split; [vm_compute; reflexivity|].
    vm_compute. discriminate.
  - eexists _, _. split; [vm_compute; reflexivity|].
    split; [vm_compute; reflexivity|].
    split; [vm_compute; reflexivity|].
    split; [vm_compute; reflexivity|].
    split; [vm_compute; reflexivity|].
    vm_compute. discriminate.
Qed.

(** C4 as stated fails: when the mismatch is found the regression on the
    training file has been carried out, [vector_w] holds (1, 2) and the
    history shows the calls of [transpose], [multiply] and [inverse]. *)
Lemma mismatch_after_regression :
  exists w',
    main line_train wide_query start = Some (0%Z, w') /\
    out w' = "error" ++ newline /\
    fractions <$> (mem w' !! 2) = Some [[1%Q]; [2%Q]] /\
    List.filter is_regression_call (calls w')
    = [call_transpose 0 3 2 2; call_multiply 3 0 4 2 2 2;
       call_inverse 4 2 2; call_multiply 6 3 7 2 2 2;
       call_multiply 7 1 2 2 1 2] /\
    regression_attempted w' <> false.
Proof.
  eexists. split; [vm_compute; reflexivity|].
  split; [vm_compute; reflexivity|].
  split; [vm_compute; reflexivity|].
  split; [vm_compute; reflexivity|].
  vm_compute. discriminate.
Qed.

(** C2 as stated fails, in two ways.  The block in which the inverse ends
    is not one that [insertZeroes] has cleared; the block cleared for it
    still holds its zeros after the training part.  And in binary64 a
    non-singular product does not give the solution of the normal
    equations: on the rows (100000000, 1) and (100000001, 2) the last
    cell of the product is rounded, the second pivot is 0, [inverse]
    returns infinities and [vector_w] ends as two not-a-numbers, where
    exact arithmetic meets no zero pivot and gives (-99999999, 1). *)
Lemma inverse_block_never_cleared :
  (exists t w,
     main_train line_train start = Some (t, w) /\
     inverse_x t = 6 /\
     cleared_blocks (calls w) = [0; 1; 2; 3; 4; 5; 7] /\
     is_in (inverse_x t) (cleared_blocks (calls w)) <> true /\
     fractions <$> (mem w !! 5) = Some [[0%Q; 0%Q]; [0%Q; 0%Q]] /\
     fractions <$> (mem w !! 6) = Some [[5%Q; (-3)%Q]; [(-3)%Q; 2%Q]]) /\
  (exists t w t' w',
     main_train steep_train_d start = Some (t, w) /\
     gram steep_train_d
     = [[2; 200000001]; [200000001; 20000000200000000]]%float /\
     pivot 2 (cell (gram steep_train_d)) 1 = 0%float /\
     mem w !! inverse_x t
     = Some [[infinity; neg_infinity]; [neg_infinity; infinity]] /\
     mem w !! vector_w t = Some [[nan]; [nan]] /\
     main_train steep_train start = Some (t', w') /\
     no_zero_pivotb 2 (gram steep_train) = true /\
     fractions <$> (mem w' !! vector_w t')
     = Some [[(-99999999)%Q]; [1%Q]] /\
     fractions (gram steep_train)
     = [[2%Q; 200000001%Q]; [200000001%Q; 20000000200000001%Q]]).
Proof.
  split.
  - eexists _, _. split; [vm_compute; reflexivity|].
    split; [vm_compute; reflexivity|].
    split; [vm_compute; reflexivity|].
    split; [vm_compute; discriminate|].
    split; [vm_compute; reflexivity|].
    vm_compute. reflexivity.
  - eexists _, _, _, _. split; [vm_compute; reflexivity|].
    split; [vm_compute; reflexivity|].
    split; [vm_compute; reflexivity|].
    split; [vm_compute; reflexivity|].
    split; [vm_compute; reflexivity|].
    split; [vm_compute; reflexivity|].
    split; [vm_compute; reflexivity|].
    split; [vm_compute; reflexivity|].
    vm_compute. reflexivity.
Qed.

(** C3 as stated fails in binary64: on a cell that holds 2 ^ 53, with the
    row (1 1) and the column (1 1), [multiply] adds 1 twice and each sum
    is rounded back to 2 ^ 53, while the cell plus the dot product is
    2 ^ 53 + 2. *)
Lemma multiply_rounds_each_addition :
  exists w',
    multiply 0 1 2 1 1 2 large_cell = Some (2, w') /\
    mem w' !! 2 = Some [[9007199254740992%float]] /\
    sum_upto 2 (fun k => cell [[1; 1]] 0 k * cell [[1]; [1]] k 0)%F
    = 2%float /\
    (9007199254740992 + 2 = 9007199254740994)%float /\
    cell (default [] (mem w' !! 2)) 0 0
    <> (cell [[9007199254740992%float]] 0 0 +
        sum_upto 2 (fun k => cell [[1; 1]] 0 k * cell [[1]; [1]] k 0))%F.
Proof.
  eexists. split; [vm_compute; reflexivity|].
  split; [vm_compute; reflexivity|].
  split; [vm_compute; reflexivity|].
  split; [vm_compute; reflexivity|].
  vm_compute. intros Heq. apply (f_equal Prim2SF) in Heq.
  vm_compute in Heq. discriminate.
Qed.


(** C9. On the training rows (1,3) and (2,5) the training part leaves
    (1, 2) in [vector_w], and for the query row (4) the prediction is 9,
    printed as the line "9"; so it is on the rationals and in binary64. *)
Theorem line_example :
  (exists t w1 w2,
     main_train line_train start = Some (t, w1) /\
     fractions <$> (mem w1 !! vector_w t) = Some [[1%Q]; [2%Q]] /\
     main line_train line_query start = Some (0%Z, w2) /\
     fractions <$> (mem w2 !! 9) = Some [[9%Q]] /\
     out w2 = "9" ++ newline) /\
  (exists t w1 w2,
     main_train line_train_d start = Some (t, w1) /\
     mem w1 !! vector_w t = Some [[1]; [2]]%float /\
     main line_train_d line_query_d start = Some (0%Z, w2) /\
     mem w2 !! 9 = Some [[9%float]] /\
     out w2 = "9" ++ newline).
Proof.
  split.
  - eexists _, _, _. split; [vm_compute; reflexivity|].
    split; [vm_compute; reflexivity|].
    split; [vm_compute; reflexivity|].
    split; [vm_compute; reflexivity|].
    vm_compute. reflexivity.
  - eexists _, _, _. split; [vm_compute; reflexivity|].
    split; [vm_compute; reflexivity|].
    split; [vm_compute; reflexivity|].
    split; [vm_compute; reflexivity|].
    vm_compute. reflexivity.
Qed.

(** *** The theorems at concrete inputs *)



Lemma multiply_accumulates_sample :
  exists D',
    multiply 0 1 2 2 2 2 sample
    = Some (2, upd 2 D' (entered (call_multiply 0 1 2 2 2 2) sample)) /\
    is_matrix 2 2 D' /\
    (forall i j, i < 2 -> j < 2 ->
       cell D' i j
       = accumulate (cell [[Qz 0; Qz 0]; [Qz 0; Qz 0]] i j) 2
           (fun k => cell [[Qz 2; Qz 3]; [Qz 3; Qz 5]] i k *
                     cell [[Qz 1; Qz 0]; [Qz 4; Qz 1]] k j)%F) /\
    ([[Qz 0; Qz 0]; [Qz 0; Qz 0]] = mat_zero 2 2 ->
     D' = mat_prod [[Qz 2; Qz 3]; [Qz 3; Qz 5]]
                   [[Qz 1; Qz 0]; [Qz 4; Qz 1]] 2 2 2) /\
    (forall i j, i < 2 -> j < 2 ->
       cell D' i j
       = (cell [[Qz 0; Qz 0]; [Qz 0; Qz 0]] i j +
          sum_upto 2 (fun k => cell [[Qz 2; Qz 3]; [Qz 3; Qz 5]] i k *
                               cell [[Qz 1; Qz 0]; [Qz 4; Qz 1]] k j))%F).
Proof.
  destruct (multiply_accumulates 0 1 2 2 2 2
              [[Qz 2; Qz 3]; [Qz 3; Qz 5]] [[Qz 1; Qz 0]; [Qz 4; Qz 1]]
              [[Qz 0; Qz 0]; [Qz 0; Qz 0]] sample
              ltac:(lia) ltac:(lia) eq_refl eq_refl eq_refl
              ltac:(split; [reflexivity|repeat constructor])
              ltac:(split; [reflexivity|repeat constructor])
              ltac:(split; [reflexivity|repeat constructor]))
    as (D' & Hrun & HD & Hacc & Hzero & Hex).
  exists D'. split; [exact Hrun|]. split; [exact HD|].
  split; [exact Hacc|]. split; [exact Hzero|exact (Hex Qc_exact)].
Defined.

Lemma multiply_preserves_operands_sample :
  exists w',
    multiply 0 1 2 2 2 2 sample = Some (2, w') /\
    mem w' !! 0 = mem sample !! 0 /\
    mem w' !! 1 = mem sample !! 1.
Proof.
  eexists. split; [vm_compute; reflexivity|].
  destruct (multiply_preserves_operands 0 1 2 2 2 2 sample _ 2
              ltac:(lia) ltac:(lia) ltac:(vm_compute; reflexivity))
    as (Ha & Hb & _).
  split; [exact Ha|exact Hb].
Defined.

Lemma transpose_correct_sample :
  exists T' w',
    transpose 0 1 2 2 sample = Some (1, w') /\
    mem w' !! 1 = Some T' /\
    is_matrix 2 2 T' /\
    (forall i j, i < 2 -> j < 2 ->
       cell T' i j = cell [[Qz 2; Qz 3]; [Qz 3; Qz 5]] j i) /\
    mem w' !! 0 = Some [[Qz 2; Qz 3]; [Qz 3; Qz 5]].
Proof.
  apply (transpose_correct 0 1 2 2 [[Qz 2; Qz 3]; [Qz 3; Qz 5]]
           [[Qz 1; Qz 0]; [Qz 4; Qz 1]] sample);
    first [lia | reflexivity | (split; [reflexivity|repeat constructor])].
Defined.

Lemma transpose_involution_sample :
  exists w1 w2,
    transpose 1 0 2 2 sample = Some (0, w1) /\
    transpose 0 2 2 2 w1 = Some (2, w2) /\
    mem w2 !! 2 = Some [[Qz 1; Qz 0]; [Qz 4; Qz 1]] /\
    (forall i j, i < 2 -> j < 2 ->
       cell (default [] (mem w2 !! 2)) i j
       = cell [[Qz 1; Qz 0]; [Qz 4; Qz 1]] i j).
Proof.
  apply (transpose_involution 1 0 2 2 2 [[Qz 1; Qz 0]; [Qz 4; Qz 1]]
           [[Qz 2; Qz 3]; [Qz 3; Qz 5]] [[Qz 0; Qz 0]; [Qz 0; Qz 0]] sample);
    first [lia | reflexivity | (split; [reflexivity|repeat constructor])].
Defined.

Lemma solver_normal_equations_line :
  nonsingular 2 (gram line_train) /\
  exists Inv w,
    main_train line_train start = Some (train_vars line_train, w) /\
    mem w !! 6 = Some Inv /\
    mem w !! 2 = Some (coefficients line_train Inv) /\
    mat_prod (gram line_train) Inv 2 2 2 = mat_id 2 /\
    mat_prod Inv (gram line_train) 2 2 2 = mat_id 2.
Proof.
  assert (Hns : nonsingular 2 (gram line_train)).
  { apply (left_inverse_nonsingular 2 _
             [[Qz 5; Qz (-3)]; [Qz (-3); Qz 2]]).
    apply fractions_inj. vm_compute. reflexivity. }
  split; [exact Hns|].
  destruct (solver_normal_equations line_train)
    as (Inv & w & Hrun & _ & _ & _ & HInv & _ & Hw & _ & _ & _ & _ & _ & _ & _
        & Hex).
  destruct (Hex Qc_exact Qc_ordered Hns) as [Hr Hl].
  exists Inv, w. split; [exact Hrun|]. split; [exact HInv|].
  split; [exact Hw|]. split; [exact Hr|exact Hl].
Defined.

Lemma mismatch_prints_error_line :
  exists t w1 w' Inv,
    main_train line_train start = Some (t, w1) /\
    main line_train wide_query start = Some (0%Z, w') /\
    out w' = "error" ++ newline /\
    in2 w' = numbers wide_query /\
    mem w' = mem w1 /\
    calls w' = train_calls line_train /\
    regression_attempted w' = true /\
    mem w' !! vector_w t = Some (coefficients line_train Inv).
Proof.
  apply (mismatch_prints_error line_train wide_query).
  vm_compute. discriminate.
Defined.

Lemma prices_are_rounded_flat :
  exists w',
    main flat_train_d flat_query_d start = Some (0%Z, w') /\
    mem w' !! 9
    = Some (predictions flat_train_d flat_query_d
              (inverted 1 (gram flat_train_d))) /\
    out w' = "3" ++ newline /\
    line_count (out w') = 1 /\
    exists n : Z,
      fmt_0f 2.75%float = sign_text false ++ decimal n /\
      (0 <= n)%Z /\ nearest_to n 6192449487634432 (-51).
Proof.
  destruct (prices_are_rounded flat_train_d flat_query_d eq_refl)
    as (w' & Hrun & Hm & Hout & Hlines & Hfmt).
  exists w'. split; [exact Hrun|]. split; [exact Hm|].
  split; [rewrite Hout; vm_compute; reflexivity|]. split; [exact Hlines|].
  destruct (Hfmt 2.75%float) as (_ & Hfin & _).
  apply (Hfin false 6192449487634432%positive (-51)%Z). reflexivity.
Defined.

(** *** The further properties at concrete inputs *)

Lemma product_with_transpose_symmetric_sample :
  exists G w',
    (transpose 0 1 2 2;; multiply 1 0 2 2 2 2) sample_d = Some (2, w') /\
    mem w' !! 2 = Some G /\
    (forall i j, i < 2 -> j < 2 ->
       cell G i j
       = sum_upto 2 (fun k => cell [[2; 3]; [3; 5]]%float k i *
                              cell [[2; 3]; [3; 5]]%float k j)%F) /\
    (forall i j, i < 2 -> j < 2 -> cell G i j = cell G j i).
Proof.
  apply (product_with_transpose_symmetric 0 1 2 2 2
           [[2; 3]; [3; 5]]%float [[1; 0]; [4; 1]]%float sample_d);
    first [lia | reflexivity | (split; [reflexivity|repeat constructor])].
Defined.

Lemma transpose_of_product_bench :
  exists P w1 w2,
    (multiply 0 1 4 2 2 2;; transpose 4 6 2 2) bench_d = Some (6, w1) /\
    (transpose 0 7 2 2;; transpose 1 2 2 2;; multiply 2 7 5 2 2 2) bench_d
    = Some (5, w2) /\
    mem w1 !! 6 = Some P /\
    mem w2 !! 5 = Some P.
Proof.
  apply (transpose_of_product 0 1 4 6 7 2 5 2 2 2
           [[2; 3]; [3; 5]]%float [[1; 0]; [4; 1]]%float
           (mat_zero 2 2) (mat_zero 2 2) [[0; 1]; [1; 1]]%float bench_d);
    first [lia | reflexivity | apply is_matrix_tabulate
          | (split; [reflexivity|repeat constructor])].
Defined.

Lemma inverse_of_identity_bench :
  exists w',
    inverse 3 2 2 bench_d = Some (8, w') /\
    mem w' !! 8 = Some (mat_id 2) /\
    mem w' !! 3 = Some (mat_id 2).
Proof. apply (inverse_of_identity 2 3 bench_d). reflexivity. Defined.

Lemma empty_training_divides_by_zero_no_rows :
  exists w,
    main_train no_rows_d start = Some (train_vars no_rows_d, w) /\
    gram no_rows_d = mat_zero 2 2 /\
    pivot 2 (cell (gram no_rows_d)) 0 = 0%float /\
    mem w !! 4 = Some (eliminated 2 (mat_zero 2 2)) /\
    mem w !! 6 = Some (inverted 2 (mat_zero 2 2)) /\
    mem w !! 2 = Some (mat_zero 2 1).
Proof. exact (empty_training_divides_by_zero no_rows_d eq_refl). Defined.

Lemma insertZeroes_clears_sample :
  exists Z w',
    insertZeroes 0 2 2 sample = Some (0, w') /\
    mem w' !! 0 = Some Z /\
    is_matrix 2 2 Z /\
    (forall i j, i < 2 -> j < 2 -> cell Z i j = 0%F) /\
    (forall l, l <> 0 -> mem w' !! l = mem sample !! l) /\
    length (mem w') = length (mem sample) /\
    out w' = out sample.
Proof.
  apply (insertZeroes_clears 0 2 2 [[Qz 2; Qz 3]; [Qz 3; Qz 5]] sample);
    first [reflexivity | (split; [reflexivity|repeat constructor])].
Defined.

Lemma multiply_after_insertZeroes_bench :
  exists P w',
    (insertZeroes 2 2 2;; multiply 0 1 2 2 2 2) bench = Some (2, w') /\
    mem w' !! 2 = Some P /\
    is_matrix 2 2 P /\
    (forall i j, i < 2 -> j < 2 ->
       cell P i j
       = sum_upto 2 (fun k => cell [[Qz 2; Qz 3]; [Qz 3; Qz 5]] i k *
                              cell [[Qz 1; Qz 0]; [Qz 4; Qz 1]] k j)%F).
Proof.
  apply (multiply_after_insertZeroes 0 1 2 2 2 2
           [[Qz 2; Qz 3]; [Qz 3; Qz 5]] [[Qz 1; Qz 0]; [Qz 4; Qz 1]]
           [[Qz 0; Qz 1]; [Qz 1; Qz 1]] bench);
    first [lia | reflexivity | (split; [reflexivity|repeat constructor])].
Defined.

Lemma transpose_in_place_sample :
  exists w',
    transpose 1 1 2 2 sample = Some (1, w') /\
    mem w' !! 1 = Some (lower_mirrored 2 [[Qz 1; Qz 0]; [Qz 4; Qz 1]]) /\
    (forall i j, j <= i -> i < 2 ->
       cell (lower_mirrored 2 [[Qz 1; Qz 0]; [Qz 4; Qz 1]]) i j
       = cell [[Qz 1; Qz 0]; [Qz 4; Qz 1]] i j /\
       cell (lower_mirrored 2 [[Qz 1; Qz 0]; [Qz 4; Qz 1]]) j i
       = cell [[Qz 1; Qz 0]; [Qz 4; Qz 1]] i j) /\
    (forall l, l <> 1 -> mem w' !! l = mem sample !! l).
Proof.
  apply (transpose_in_place 1 2 [[Qz 1; Qz 0]; [Qz 4; Qz 1]] sample);
    first [reflexivity | (split; [reflexivity|repeat constructor])].
Defined.

Lemma transpose_writes_only_destination_sample :
  exists w',
    transpose 0 1 2 2 sample = Some (1, w') /\
    forall l, l <> 1 -> mem w' !! l = mem sample !! l.
Proof.
  eexists. split; [vm_compute; reflexivity|].
  destruct (transpose_writes_only_destination 0 1 2 2 sample _ 1
              ltac:(vm_compute; reflexivity)) as [_ Hfr].
  exact Hfr.
Defined.

Lemma inverse_touches_only_argument_sample :
  exists Y w',
    inverse 0 2 2 sample = Some (3, w') /\
    length (mem w') = 4 /\
    mem w' !! 3 = Some Y /\
    is_matrix 2 2 Y /\
    (forall l, l <> 0 -> l < 3 -> mem w' !! l = mem sample !! l) /\
    out w' = out sample.
Proof.
  apply (inverse_touches_only_argument 2 0
           [[Qz 2; Qz 3]; [Qz 3; Qz 5]] sample);
    first [reflexivity | (split; [reflexivity|repeat constructor])].
Defined.

Lemma inverse_overflows_when_wider_sample : inverse 0 1 2 sample = None.
Proof. apply (inverse_overflows_when_wider 0 1 2 sample); lia. Defined.

Lemma printPriceMatrix_prints_rows_sample :
  exists w',
    printPriceMatrix 0 2 2 sample = Some (tt, w') /\
    out w' = (out sample ++
              rows_text fmt_0f [[Qz 2; Qz 3]; [Qz 3; Qz 5]] 2 2)%string /\
    mem w' = mem sample /\ in1 w' = in1 sample /\ in2 w' = in2 sample.
Proof.
  apply (printPriceMatrix_prints_rows 0 2 2
           [[Qz 2; Qz 3]; [Qz 3; Qz 5]] sample);
    first [reflexivity | (split; [reflexivity|repeat constructor])].
Defined.

Lemma printMatrix_prints_rows_sample :
  exists w',
    printMatrix 0 2 2 sample = Some (tt, w') /\
    out w' = (out sample ++
              rows_text (fun x => fmt_lf x ++ " ")
                [[Qz 2; Qz 3]; [Qz 3; Qz 5]] 2 2)%string /\
    mem w' = mem sample /\ in1 w' = in1 sample /\ in2 w' = in2 sample.
Proof.
  apply (printMatrix_prints_rows 0 2 2
           [[Qz 2; Qz 3]; [Qz 3; Qz 5]] sample);
    first [reflexivity | (split; [reflexivity|repeat constructor])].
Defined.

Lemma surplus_numbers_unread_line :
  exists w w',
    main line_train line_query start = Some (0%Z, w) /\
    main (with_numbers line_train (numbers line_train ++ [Qz 7]))
         (with_numbers line_query (numbers line_query ++ [Qz 8])) start
    = Some (0%Z, w') /\
    mem w' = mem w /\
    out w' = out w /\
    in1 w = drop 4 (numbers line_train) /\
    in1 w' = (in1 w ++ [Qz 7])%list /\
    (attributes line_train = attributes line_query ->
       in2 w = drop 1 (numbers line_query) /\
       in2 w' = (in2 w ++ [Qz 8])%list).
Proof.
  apply (surplus_numbers_unread line_train line_query [Qz 7] [Qz 8]);
    simpl; lia.
Defined.

Lemma estimation_appends_two_blocks_line :
  exists w1 Y w',
    main_train line_train start = Some (train_vars line_train, w1) /\
    main line_train line_query start = Some (0%Z, w') /\
    mem w' = (mem w1 ++ [query line_query; Y])%list /\
    is_matrix 1 1 Y /\
    (forall i, i < 1 -> cell (query line_query) i 0 = 1%F) /\
    (forall i j, i < 1 -> j < 1 ->
       cell (query line_query) i (j + 1)
       = nth (i * 1 + j) (numbers line_query) 0%F) /\
    calls w' = (calls w1 ++ estimate_calls line_query)%list.
Proof.
  apply (estimation_appends_two_blocks line_train line_query). reflexivity.
Defined.
